(** * SPIRE: federated bundle service, SVID store pipe and rotator accessor

    A shallow embedding of

    - [pkg/server/api/bundle/v1/service.go]   (package [bundle]),
    - [pkg/server/api] status helpers          (package [api]),
    - the SVID store pipe                      (package [pipe]),
    - [pkg/agent/svid/rotator_config.go]       (package [svid]),

    followed by the properties of the specification that are checked
    against it.

    Conventions.  A Go function returning [(T, error)] becomes a function
    into [result T]; a Go pointer that may be [nil] becomes an [option];
    [int32], [int64] and [uint64] fields are [Z]; [[]byte] is [list byte];
    a Go slice is a [list] ([nil] and the empty slice are both [[]]).
    Calls on the logger are write-only and are left out. *)

From Stdlib Require Import ZArith Ascii String List Lia Bool.
From stdpp Require Import base option list strings gmap.
Import ListNotations.
Local Open Scope Z_scope.
Local Open Scope string_scope.
Local Open Scope list_scope.

(* ===================================================================== *)
(** * Part I: the program                                                 *)
(* ===================================================================== *)

(** ** Go values shared by the packages *)

(** [[]byte] *)
Abbreviation bytes := (list Byte.byte).

(** [google.golang.org/grpc/codes]: the status codes and their wire values. *)
Module codes.

Inductive Code :=
| OK | Canceled | Unknown | InvalidArgument | DeadlineExceeded | NotFound
| AlreadyExists | PermissionDenied | ResourceExhausted | FailedPrecondition
| Aborted | OutOfRange | Unimplemented | Internal | Unavailable | DataLoss
| Unauthenticated.

(** [int32(code)] *)
Definition int32 (c : Code) : Z :=
  match c with
  | OK => 0 | Canceled => 1 | Unknown => 2 | InvalidArgument => 3
  | DeadlineExceeded => 4 | NotFound => 5 | AlreadyExists => 6
  | PermissionDenied => 7 | ResourceExhausted => 8
  | FailedPrecondition => 9 | Aborted => 10 | OutOfRange => 11
  | Unimplemented => 12 | Internal => 13 | Unavailable => 14
  | DataLoss => 15 | Unauthenticated => 16
  end.

(** [code.String()] *)
Definition String (c : Code) : string :=
  match c with
  | OK => "OK" | Canceled => "Canceled" | Unknown => "Unknown"
  | InvalidArgument => "InvalidArgument"
  | DeadlineExceeded => "DeadlineExceeded" | NotFound => "NotFound"
  | AlreadyExists => "AlreadyExists"
  | PermissionDenied => "PermissionDenied"
  | ResourceExhausted => "ResourceExhausted"
  | FailedPrecondition => "FailedPrecondition" | Aborted => "Aborted"
  | OutOfRange => "OutOfRange" | Unimplemented => "Unimplemented"
  | Internal => "Internal" | Unavailable => "Unavailable"
  | DataLoss => "DataLoss" | Unauthenticated => "Unauthenticated"
  end.

End codes.

(** A non-nil Go [error].  The service only ever asks two things of an
    error: its text ([err.Error()], through the [%v] verb) and whether it
    carries a gRPC status ([status.FromError]). *)
Inductive error :=
| StatusError (c : codes.Code) (msg : string)   (* built by [status.Error] *)
| PlainError (msg : string).                    (* any other error value *)

(** The outcome of a Go call returning [(T, error)]. *)
Inductive result (A : Type) :=
| Ok (a : A)
| Err (e : error).
Arguments Ok {A} a.
Arguments Err {A} e.

(** [err.Error()] *)
Definition Error (e : error) : string :=
  match e with
  | StatusError c msg =>
      "rpc error: code = " +:+ codes.String c +:+ " desc = " +:+ msg
  | PlainError msg => msg
  end.

(** The two facts about [fmt] that the embedding does not unfold: the [%q]
    verb applied to a string, and [fmt.Sprintf(format)] called without
    operands (which rewrites the verbs left in [format]). *)
Class Fmt := {
  fmt_q : string -> string;
  Sprintf0 : string -> string
}.

(** [google.golang.org/grpc/status] *)
Module status.

(** [status.Error(c, msg)] and, once the message is formatted,
    [status.Errorf(c, format, a...)].  Every call site passes a code other
    than [codes.OK], for which the library returns a non-nil error. *)
Definition Error (c : codes.Code) (msg : string) : error := StatusError c msg.

(** [status.FromError(err)] on a non-nil error, as the pair
    [(s.Code(), s.Message())]: an error without a gRPC status is reported
    as [codes.Unknown] with its text as message. *)
Definition FromError (err : error) : codes.Code * string :=
  match err with
  | StatusError c msg => (c, msg)
  | PlainError msg => (codes.Unknown, msg)
  end.

End status.

(** [github.com/spiffe/go-spiffe/v2/spiffeid]: a trust domain is its
    canonical name.  [String] is the name itself ([example.org]),
    [IDString] the SPIFFE ID of the trust domain ([spiffe://example.org],
    the id under which the tests of the service store the bundle of
    [example.org]), [Compare] is [strings.Compare] on the names. *)
Module spiffeid.

Record TrustDomain := { name : string }.

Definition String (td : TrustDomain) : string := name td.

Definition IDString (td : TrustDomain) : string := "spiffe://" +:+ name td.

Definition Compare (td other : TrustDomain) : Z :=
  match String.compare (name td) (name other) with
  | Eq => 0
  | Lt => -1
  | Gt => 1
  end.

(** [spiffeid.TrustDomainFromString]: the URL parser behind it is not
    unfolded; the service is verified for every parser. *)
Class Parser := TrustDomainFromString : string -> result TrustDomain.

End spiffeid.

(** [proto/spire/common] *)
Module common.

Record Certificate := { DerBytes : bytes }.

Record PublicKey := {
  PkixBytes : bytes;
  Kid : string;
  NotAfter : Z
}.

(** Modelled from the spec: the declaration of [common.Bundle] is not
    among the sources.  The fields are those the service and its tests
    use, plus the sequence number that the data model of the
    specification gives to a stored trust bundle. *)
Record Bundle := {
  TrustDomainId : string;
  RootCas : list Certificate;
  JwtSigningKeys : list PublicKey;
  RefreshHint : Z;
  SequenceNumber : Z
}.

Record Selector := {
  Type_ : string;
  Value : string
}.

End common.

(** [proto/spire-next/types] *)
Module types.

Record Status := {
  Code : Z;
  Message : string
}.

Record X509Certificate := { Asn1 : bytes }.

Record JWTKey := {
  PublicKey : bytes;
  KeyId : string;
  ExpiresAt : Z
}.

Record BundleMask := {
  mTrustDomain : bool;
  mRefreshHint : bool;
  mSequenceNumber : bool;
  mX509Authorities : bool;
  mJwtAuthorities : bool
}.

Record Bundle := {
  TrustDomain : string;
  RefreshHint : Z;
  SequenceNumber : Z;
  X509Authorities : list X509Certificate;
  JwtAuthorities : list JWTKey
}.

(** [&types.Bundle{}] *)
Definition zero : Bundle :=
  {| TrustDomain := ""; RefreshHint := 0; SequenceNumber := 0;
     X509Authorities := []; JwtAuthorities := [] |}.

(** Field assignments [out.F = v]. *)
Definition set_TrustDomain (v : string) (out : Bundle) : Bundle :=
  {| TrustDomain := v; RefreshHint := RefreshHint out;
     SequenceNumber := SequenceNumber out;
     X509Authorities := X509Authorities out;
     JwtAuthorities := JwtAuthorities out |}.

Definition set_RefreshHint (v : Z) (out : Bundle) : Bundle :=
  {| TrustDomain := TrustDomain out; RefreshHint := v;
     SequenceNumber := SequenceNumber out;
     X509Authorities := X509Authorities out;
     JwtAuthorities := JwtAuthorities out |}.

Definition set_SequenceNumber (v : Z) (out : Bundle) : Bundle :=
  {| TrustDomain := TrustDomain out; RefreshHint := RefreshHint out;
     SequenceNumber := v;
     X509Authorities := X509Authorities out;
     JwtAuthorities := JwtAuthorities out |}.

Definition set_X509Authorities (v : list X509Certificate) (out : Bundle)
  : Bundle :=
  {| TrustDomain := TrustDomain out; RefreshHint := RefreshHint out;
     SequenceNumber := SequenceNumber out;
     X509Authorities := v;
     JwtAuthorities := JwtAuthorities out |}.

Definition set_JwtAuthorities (v : list JWTKey) (out : Bundle) : Bundle :=
  {| TrustDomain := TrustDomain out; RefreshHint := RefreshHint out;
     SequenceNumber := SequenceNumber out;
     X509Authorities := X509Authorities out;
     JwtAuthorities := v |}.

End types.

(** ** Package [api]: status helpers *)
Module api.

(** [CreateStatus(code, format, a...)] when called without operands. *)
Definition CreateStatus `{Fmt} (code : codes.Code) (format : string)
  : types.Status :=
  {| types.Code := codes.int32 code; types.Message := Sprintf0 format |}.

(** [StatusFromError(err)]: [nil] for a nil error. *)
Definition StatusFromError `{Fmt} (err : option error)
  : option types.Status :=
  match err with
  | None => None
  | Some e =>
      let s := status.FromError e in
      Some (CreateStatus (fst s) (snd s))
  end.

End api.

(** [pkg/server/plugin/datastore] *)
Module datastore.

Inductive DeleteBundleRequest_Mode := RESTRICT | DELETE | DISSOCIATE.

Record Pagination := {
  Token : string;
  PageSize : Z
}.

Record ListBundlesRequest := { reqPagination : option Pagination }.

Record ListBundlesResponse := {
  Bundles : list common.Bundle;
  respPagination : option Pagination
}.

(** Modelled from the spec: the [DataStore] interface is declared outside
    the sources at hand.  Its three operations used by the service are
    those of the repository collaborator of the specification: fetch by
    trust-domain id (a bundle, or none when absent), list with optional
    pagination, delete by id under a mode.  An operation may change the
    state [St] of the repository. *)
Class DataStore (St : Type) := {
  FetchBundle : string -> St -> result (option common.Bundle) * St;
  ListBundles : ListBundlesRequest -> St -> result ListBundlesResponse * St;
  DeleteBundle : string -> DeleteBundleRequest_Mode -> St -> option error * St
}.

(** The requests the repository has received, oldest first. *)
Inductive Call :=
| CallFetchBundle (TrustDomainId : string)
| CallListBundles (req : ListBundlesRequest)
| CallDeleteBundle (TrustDomainId : string) (Mode : DeleteBundleRequest_Mode).

(** What an RPC handler acts on: the repository and the record of the
    requests made to it. *)
Record World (St : Type) := {
  store : St;
  calls : list Call
}.
Arguments store {St} w.
Arguments calls {St} w.

(** Handlers thread the world through their calls. *)
Definition M (St A : Type) : Type := World St -> A * World St.

Definition ret {St A} (a : A) : M St A := fun w => (a, w).

Definition bind {St A B} (m : M St A) (k : A -> M St B) : M St B :=
  fun w => let (a, w') := m w in k a w'.

(** One request to the repository: run it on the store, record it. *)
Definition request {St A} (c : Call) (op : St -> A * St) : M St A :=
  fun w =>
    let (a, st') := op (store w) in
    (a, {| store := st'; calls := calls w ++ [c] |}).

End datastore.

(** [x ← m; k] sequences two steps of a handler. *)
Global Instance M_bind {St} : MBind (datastore.M St) :=
  fun A B k m => datastore.bind m k.

(** [proto/spire-next/api/server/bundle/v1]: requests and responses. *)
Module bundlepb.

Record GetBundleRequest := { gbOutputMask : option types.BundleMask }.

Record ListFederatedBundlesRequest := {
  lfPageSize : Z;
  lfPageToken : string;
  lfOutputMask : option types.BundleMask
}.

Record ListFederatedBundlesResponse := {
  Bundles : list types.Bundle;
  NextPageToken : string
}.

Record GetFederatedBundleRequest := {
  gfTrustDomain : string;
  gfOutputMask : option types.BundleMask
}.

Record BatchDeleteFederatedBundleRequest := { TrustDomains : list string }.

Record BatchDeleteFederatedBundleResponse_Result := {
  Status : option types.Status;
  TrustDomain : string
}.

Record BatchDeleteFederatedBundleResponse := {
  Results : list BatchDeleteFederatedBundleResponse_Result
}.

End bundlepb.

(** ** Package [bundle]: the federated bundle service *)
Module bundle.

Import spiffeid datastore.

Definition defaultMask : types.BundleMask :=
  {| types.mTrustDomain := true;
     types.mRefreshHint := true;
     types.mSequenceNumber := true;
     types.mX509Authorities := true;
     types.mJwtAuthorities := true |}.

(** The loop over [b.RootCas]. *)
Definition x509Authorities (rootCas : list common.Certificate)
  : list types.X509Certificate :=
  fold_left
    (fun authorities rootCA =>
       authorities ++ [ {| types.Asn1 := common.DerBytes rootCA |} ])
    rootCas [].

(** The loop over [b.JwtSigningKeys]. *)
Definition jwtAuthorities (keys : list common.PublicKey)
  : list types.JWTKey :=
  fold_left
    (fun authorities JWTSigningKey =>
       authorities ++
         [ {| types.PublicKey := common.PkixBytes JWTSigningKey;
              types.KeyId := common.Kid JWTSigningKey;
              types.ExpiresAt := common.NotAfter JWTSigningKey |} ])
    keys [].

Definition applyMask `{Parser} (b : common.Bundle)
    (mask : option types.BundleMask) : result types.Bundle :=
  let mask := match mask with None => defaultMask | Some m => m end in
  let out := types.zero in
  match
    (if types.mTrustDomain mask then
       match TrustDomainFromString (common.TrustDomainId b) with
       | Err err => Err err
       | Ok td => Ok (types.set_TrustDomain (String td) out)
       end
     else Ok out)
  with
  | Err err => Err err
  | Ok out =>
      let out :=
        if types.mRefreshHint mask
        then types.set_RefreshHint (common.RefreshHint b) out else out in
      let out :=
        if types.mSequenceNumber mask
        then types.set_SequenceNumber 0 out else out in
      let out :=
        if types.mX509Authorities mask
        then types.set_X509Authorities (x509Authorities (common.RootCas b)) out
        else out in
      let out :=
        if types.mJwtAuthorities mask
        then types.set_JwtAuthorities
               (jwtAuthorities (common.JwtSigningKeys b)) out
        else out in
      Ok out
  end.

(** The service holds the repository (here: the class instance and the
    world the handlers act on) and the trust domain of the server. *)
Record Service := { td : TrustDomain }.

Section Service.

Context `{Parser} `{Fmt} {St : Type} `{DataStore St}.

Definition GetBundle (s : Service) (req : bundlepb.GetBundleRequest)
  : M St (result types.Bundle) :=
  dsResp ← request (CallFetchBundle (IDString (td s)))
                    (FetchBundle (IDString (td s)));
  match dsResp with
  | Err err =>
      ret (Err (status.Error codes.Internal
                  ("failed to fetch bundle: " +:+ Error err)))
  | Ok None =>
      ret (Err (status.Error codes.NotFound "bundle not found"))
  | Ok (Some dsBundle) =>
      match applyMask dsBundle (bundlepb.gbOutputMask req) with
      | Err err =>
          ret (Err (status.Error codes.Internal
                      ("failed to apply mask: " +:+ Error err)))
      | Ok b => ret (Ok b)
      end
  end.

(** The loop of [ListFederatedBundles] over [dsResp.Bundles];
    [bundles] is [resp.Bundles] so far. *)
Fixpoint listLoop (s : Service) (mask : option types.BundleMask)
    (dsBundles : list common.Bundle) (bundles : list types.Bundle)
  : result (list types.Bundle) :=
  match dsBundles with
  | [] => Ok bundles
  | dsBundle :: rest =>
      match TrustDomainFromString (common.TrustDomainId dsBundle) with
      | Err _ =>
          Err (status.Error codes.Internal
                 ("bundle has an invalid trust domain ID: "
                    +:+ fmt_q (common.TrustDomainId dsBundle)))
      | Ok td' =>
          if (Compare (td s) td' =? 0)%Z then
            (* Filter server bundle *)
            listLoop s mask rest bundles
          else
            match applyMask dsBundle mask with
            | Err err =>
                Err (status.Error codes.Internal
                       ("failed to apply mask: " +:+ Error err))
            | Ok b => listLoop s mask rest (bundles ++ [b])
            end
      end
  end.

(** The request [listReq] built by [ListFederatedBundles]: pagination
    parameters are set only for a positive page size. *)
Definition listReq (req : bundlepb.ListFederatedBundlesRequest)
  : ListBundlesRequest :=
  if (bundlepb.lfPageSize req >? 0)%Z then
    {| reqPagination :=
         Some {| PageSize := bundlepb.lfPageSize req;
                 Token := bundlepb.lfPageToken req |} |}
  else {| reqPagination := None |}.

Definition ListFederatedBundles (s : Service)
    (req : bundlepb.ListFederatedBundlesRequest)
  : M St (result bundlepb.ListFederatedBundlesResponse) :=
  let listReq := listReq req in
  dsResp ← request (CallListBundles listReq) (ListBundles listReq);
  match dsResp with
  | Err err =>
      ret (Err (status.Error codes.Internal
                  ("failed to list bundles: " +:+ Error err)))
  | Ok dsResp =>
      let NextPageToken :=
        match respPagination dsResp with
        | Some p => Token p
        | None => ""
        end in
      match listLoop s (bundlepb.lfOutputMask req) (Bundles dsResp) [] with
      | Err err => ret (Err err)
      | Ok bundles =>
          ret (Ok {| bundlepb.Bundles := bundles;
                     bundlepb.NextPageToken := NextPageToken |})
      end
  end.

Definition GetFederatedBundle (s : Service)
    (req : bundlepb.GetFederatedBundleRequest)
  : M St (result types.Bundle) :=
  match TrustDomainFromString (bundlepb.gfTrustDomain req) with
  | Err _ =>
      ret (Err (status.Error codes.InvalidArgument
                  ("trust domain argument is not a valid SPIFFE ID: "
                     +:+ fmt_q (bundlepb.gfTrustDomain req))))
  | Ok td' =>
      if (Compare (td s) td' =? 0)%Z then
        ret (Err (status.Error codes.InvalidArgument
                    (fmt_q (String td') +:+
                     " is this server own trust domain, use GetBundle RPC instead")))
      else
        dsResp ← request (CallFetchBundle (IDString td'))
                          (FetchBundle (IDString td'));
        match dsResp with
        | Err err =>
            ret (Err (status.Error codes.Internal
                        ("failed to fetch bundle: " +:+ Error err)))
        | Ok None =>
            ret (Err (status.Error codes.NotFound
                        ("bundle for " +:+ fmt_q (bundlepb.gfTrustDomain req)
                           +:+ " not found")))
        | Ok (Some dsBundle) =>
            match applyMask dsBundle (bundlepb.gfOutputMask req) with
            | Err err =>
                ret (Err (status.Error codes.Internal
                            ("failed to apply mask: " +:+ Error err)))
            | Ok b => ret (Ok b)
            end
        end
  end.

(** [deleteFederatedBundle]: [None] is the nil error. *)
Definition deleteFederatedBundle (s : Service) (trustDomain : string)
  : M St (option error) :=
  match TrustDomainFromString trustDomain with
  | Err err =>
      ret (Some (status.Error codes.InvalidArgument
                   ("malformed trust domain: " +:+ Error err)))
  | Ok td' =>
      if (Compare (td s) td' =? 0)%Z then
        ret (Some (status.Error codes.InvalidArgument
                     "no possible to delete server bundle"))
      else
        err ← request (CallDeleteBundle (String td') RESTRICT)
                       (DeleteBundle (String td') RESTRICT);
        match err with
        | Some err =>
            ret (Some (status.Error codes.Internal
                         ("failed to delete Federated Bundle: "
                            +:+ Error err)))
        | None => ret None
        end
  end.

(** The loop of [BatchDeleteFederatedBundle] over [req.TrustDomains]. *)
Fixpoint deleteLoop (s : Service) (trustDomains : list string)
    (results : list bundlepb.BatchDeleteFederatedBundleResponse_Result)
  : M St (list bundlepb.BatchDeleteFederatedBundleResponse_Result) :=
  match trustDomains with
  | [] => ret results
  | trustDomain :: rest =>
      err ← deleteFederatedBundle s trustDomain;
      deleteLoop s rest
        (results ++
           [ {| bundlepb.Status := api.StatusFromError err;
                bundlepb.TrustDomain := trustDomain |} ])
  end.

Definition BatchDeleteFederatedBundle (s : Service)
    (req : bundlepb.BatchDeleteFederatedBundleRequest)
  : M St (result bundlepb.BatchDeleteFederatedBundleResponse) :=
  if (length (bundlepb.TrustDomains req) =? 0)%nat then
    ret (Err (status.Error codes.InvalidArgument
                "request missing trust domains"))
  else
    results ← deleteLoop s (bundlepb.TrustDomains req) [];
    ret (Ok {| bundlepb.Results := results |}).

(** The mutations that are not implemented yet: whatever the request,
    the error below and no response. *)
Definition AppendBundle : error :=
  status.Error codes.Unimplemented "method AppendBundle not implemented".

Definition PublishJWTAuthority : error :=
  status.Error codes.Unimplemented
    "method PublishJWTAuthority not implemented".

Definition BatchCreateFederatedBundle : error :=
  status.Error codes.Unimplemented
    "method BatchCreateFederatedBundle not implemented".

Definition BatchUpdateFederatedBundle : error :=
  status.Error codes.Unimplemented
    "method BatchUpdateFederatedBundle not implemented".

Definition BatchSetFederatedBundle : error :=
  status.Error codes.Unimplemented
    "method BatchSetFederatedBundle not implemented".

End Service.

End bundle.

(** ** Package [pipe]: the buffered pipe of SVID updates *)

(** [strings.ToLower] on ASCII text: the letters [A]..[Z] are moved to
    [a]..[z], every other byte is kept. *)
Module strings.

Definition lower (c : ascii) : ascii :=
  let n := nat_of_ascii c in
  if ((65 <=? n) && (n <=? 90))%nat then ascii_of_nat (n + 32) else c.

Fixpoint ToLower (s : string) : string :=
  match s with
  | EmptyString => EmptyString
  | String c rest => String (lower c) (ToLower rest)
  end.

End strings.

(** The pipe is run by several goroutines: the callers of [Push] and
    [Close], the worker started by [BufferedPipe], and the consumer of the
    channel returned by [GetUpdate].  The embedding keeps the state of the
    two channels and of the lock, and gives each goroutine its steps, one
    per channel operation; a step that would block is not possible ([None])
    until another goroutine has moved.  A run of the pipe is a list of
    steps chosen by the scheduler. *)
Module pipe.

(** [IsStorable]: [svidstoreType] is the constant [svidstore.Type],
    declared outside the sources at hand; the selectors are the non-nil
    pointers of the slice. *)
Fixpoint IsStorable (svidstoreType : string)
    (selectors : list common.Selector) : bool :=
  match selectors with
  | [] => false
  | s :: rest =>
      if String.eqb (common.Type_ s) (strings.ToLower svidstoreType)
      then true
      else IsStorable svidstoreType rest
  end.

Section Pipe.

(** The struct behind a [*SVIDUpdate]; the pipe never reads its fields. *)
Variable SVIDUpdate : Type.

(** A [*SVIDUpdate]: [None] is [nil]. *)
Definition event : Type := option SVIDUpdate.

(** Where the goroutine started by [BufferedPipe] stands. *)
Inductive worker :=
| AtRange                      (* [for svidUpdate := range inCh]: receiving *)
| AtNilCheck (svidUpdate : event)   (* [if svidUpdate == nil] *)
| AtSelect (svidUpdate : event)     (* [select { case outCh <- svidUpdate: default: ] *)
| AtDiscard (svidUpdate : event)    (* [<-outCh] *)
| AtSend (svidUpdate : event)       (* [outCh <- svidUpdate] *)
| Exited.                      (* loop left; [close(outCh)], [wg.Done()] ran *)

(** The pipe between two steps of its goroutines. *)
Record state := {
  bufferSize : nat;        (* capacity of [outCh] *)
  outCh : list event;      (* items queued in [outCh], oldest first *)
  receiving : bool;        (* the consumer is blocked in a receive on [outCh] *)
  received : list event;   (* what the consumer has received so far *)
  senders : list event;    (* [Push] calls blocked in [p.in <- event] *)
  closed : bool;           (* [Close] ran: [inCh], [done] closed, [p.in] nil *)
  closing : bool;          (* a [Close] holds the lock, in [p.wg.Wait()] *)
  forwarder : worker
}.

Definition set_outCh (v : list event) (p : state) : state :=
  {| bufferSize := bufferSize p; outCh := v; receiving := receiving p;
     received := received p; senders := senders p; closed := closed p;
     closing := closing p; forwarder := forwarder p |}.

Definition set_receiving (v : bool) (p : state) : state :=
  {| bufferSize := bufferSize p; outCh := outCh p; receiving := v;
     received := received p; senders := senders p; closed := closed p;
     closing := closing p; forwarder := forwarder p |}.

Definition set_received (v : list event) (p : state) : state :=
  {| bufferSize := bufferSize p; outCh := outCh p;
     receiving := receiving p; received := v; senders := senders p;
     closed := closed p; closing := closing p; forwarder := forwarder p |}.

Definition set_senders (v : list event) (p : state) : state :=
  {| bufferSize := bufferSize p; outCh := outCh p;
     receiving := receiving p; received := received p; senders := v;
     closed := closed p; closing := closing p; forwarder := forwarder p |}.

Definition set_closed (v : bool) (p : state) : state :=
  {| bufferSize := bufferSize p; outCh := outCh p;
     receiving := receiving p; received := received p;
     senders := senders p; closed := v; closing := closing p;
     forwarder := forwarder p |}.

Definition set_closing (v : bool) (p : state) : state :=
  {| bufferSize := bufferSize p; outCh := outCh p;
     receiving := receiving p; received := received p;
     senders := senders p; closed := closed p; closing := v;
     forwarder := forwarder p |}.

Definition set_forwarder (v : worker) (p : state) : state :=
  {| bufferSize := bufferSize p; outCh := outCh p;
     receiving := receiving p; received := received p;
     senders := senders p; closed := closed p; closing := closing p;
     forwarder := v |}.

(** [BufferedPipe(bufferSize)]: both channels are made and the worker is
    started; [make] panics on a negative size ([None]). *)
Definition BufferedPipe (size : Z) : option state :=
  if (size <? 0)%Z then None
  else Some {| bufferSize := Z.to_nat size; outCh := [];
               receiving := false; received := []; senders := [];
               closed := false; closing := false;
               forwarder := AtRange |}.

(** A send of [e] on [outCh] that does not wait: a receiver blocked on
    the channel takes the item directly, else the item is queued if
    there is room; [None] when the send would block. *)
Definition trySend (e : event) (p : state) : option state :=
  if receiving p then
    Some (set_received (received p ++ [e]) (set_receiving false p))
  else if (length (outCh p) <? bufferSize p)%nat then
    Some (set_outCh (outCh p ++ [e]) p)
  else None.

(** One statement of the worker; [None] when it is blocked. *)
Definition Forward (p : state) : option state :=
  match forwarder p with
  | AtRange =>
      (* a closed [inCh] ends the loop; the deferred calls run *)
      if closed p
      then Some (set_forwarder Exited (set_receiving false p))
      else None
  | AtNilCheck None => Some (set_forwarder AtRange p)
  | AtNilCheck (Some u) => Some (set_forwarder (AtSelect (Some u)) p)
  | AtSelect svidUpdate =>
      match trySend svidUpdate p with
      | Some p' => Some (set_forwarder AtRange p')
      | None => Some (set_forwarder (AtDiscard svidUpdate) p)
      end
  | AtDiscard svidUpdate =>
      match outCh p with
      | [] => None
      | _ :: rest =>
          Some (set_forwarder (AtSend svidUpdate) (set_outCh rest p))
      end
  | AtSend svidUpdate =>
      match trySend svidUpdate p with
      | Some p' => Some (set_forwarder AtRange p')
      | None => None
      end
  | Exited => None
  end.

(** [Push(event)] up to its [select]: the read lock is taken (which
    waits while a [Close] holds the lock); on a closed pipe [p.in] is
    nil and [p.done] is closed, so the call returns; otherwise the call
    stays blocked in [p.in <- event], holding the read lock. *)
Definition Push (e : event) (p : state) : option state :=
  if closing p then None
  else if closed p then Some p
  else Some (set_senders (senders p ++ [e]) p).

(** The rendezvous on [inCh]: the worker, at [range inCh], receives the
    event of the [i]-th blocked [Push], which then returns. *)
Definition Handoff (i : nat) (p : state) : option state :=
  match forwarder p, senders p !! i with
  | AtRange, Some e =>
      Some (set_forwarder (AtNilCheck e)
              (set_senders (delete i (senders p)) p))
  | _, _ => None
  end.

(** One receive by the consumer on the channel of [GetUpdate()].  On a
    closed and drained channel the receive returns the end of the
    stream, which is not recorded as an event. *)
Definition Receive (p : state) : option state :=
  if receiving p then None
  else
    match outCh p with
    | e :: rest => Some (set_received (received p ++ [e]) (set_outCh rest p))
    | [] =>
        match forwarder p with
        | Exited => Some p
        | _ => Some (set_receiving true p)
        end
    end.

(** [Close()] up to [p.wg.Wait()]: the lock is taken, which waits for
    the [Push] calls in progress and for another [Close]. *)
Definition Close (p : state) : option state :=
  if closing p then None
  else
    match senders p with
    | _ :: _ => None
    | [] =>
        if closed p then Some p
        else Some (set_closing true (set_closed true p))
    end.

(** [p.wg.Wait()] returns once the worker is done; [Close] unlocks. *)
Definition CloseReturn (p : state) : option state :=
  match closing p, forwarder p with
  | true, Exited => Some (set_closing false p)
  | _, _ => None
  end.

(** What the scheduler may pick next. *)
Inductive action :=
| DoPush (e : event)
| DoHandoff (i : nat)
| DoForward
| DoReceive
| DoClose
| DoCloseReturn.

Definition step (a : action) (p : state) : option state :=
  match a with
  | DoPush e => Push e p
  | DoHandoff i => Handoff i p
  | DoForward => Forward p
  | DoReceive => Receive p
  | DoClose => Close p
  | DoCloseReturn => CloseReturn p
  end.

(** A schedule, run from [p]; [None] when one of its actions is not
    possible where it is asked for. *)
Fixpoint run (schedule : list action) (p : state) : option state :=
  match schedule with
  | [] => Some p
  | a :: rest =>
      match step a p with
      | Some p' => run rest p'
      | None => None
      end
  end.

End Pipe.

Arguments AtRange {SVIDUpdate}.
Arguments AtNilCheck {SVIDUpdate} svidUpdate.
Arguments AtSelect {SVIDUpdate} svidUpdate.
Arguments AtDiscard {SVIDUpdate} svidUpdate.
Arguments AtSend {SVIDUpdate} svidUpdate.
Arguments Exited {SVIDUpdate}.
Arguments bufferSize {SVIDUpdate} p : rename.
Arguments outCh {SVIDUpdate} p : rename.
Arguments receiving {SVIDUpdate} p : rename.
Arguments received {SVIDUpdate} p : rename.
Arguments senders {SVIDUpdate} p : rename.
Arguments closed {SVIDUpdate} p : rename.
Arguments closing {SVIDUpdate} p : rename.
Arguments forwarder {SVIDUpdate} p : rename.
Arguments set_outCh {SVIDUpdate} v p.
Arguments set_receiving {SVIDUpdate} v p.
Arguments set_received {SVIDUpdate} v p.
Arguments set_senders {SVIDUpdate} v p.
Arguments set_closed {SVIDUpdate} v p.
Arguments set_closing {SVIDUpdate} v p.
Arguments set_forwarder {SVIDUpdate} v p.
Arguments trySend {SVIDUpdate} e p.
Arguments Forward {SVIDUpdate} p.
Arguments Push {SVIDUpdate} e p.
Arguments Handoff {SVIDUpdate} i p.
Arguments Receive {SVIDUpdate} p.
Arguments Close {SVIDUpdate} p.
Arguments CloseReturn {SVIDUpdate} p.
Arguments DoPush {SVIDUpdate} e.
Arguments DoHandoff {SVIDUpdate} i.
Arguments DoForward {SVIDUpdate}.
Arguments DoReceive {SVIDUpdate}.
Arguments DoClose {SVIDUpdate}.
Arguments DoCloseReturn {SVIDUpdate}.
Arguments step {SVIDUpdate} a p.
Arguments run {SVIDUpdate} schedule p.

End pipe.

(** ** Package [svid]: the accessor handed to the client *)
Module svid.

(** [github.com/imkira/go-observer]: a property holds one value. *)
Record Property (A : Type) := NewProperty { Value : A }.
Arguments NewProperty {A} _.
Arguments Value {A} _.

Definition Update {A : Type} (v : A) (_ : Property A) : Property A :=
  NewProperty v.

Section Rotator.

(** [*x509.Certificate], [*ecdsa.PrivateKey], [bundleutil.Bundle] with
    its method [RootCAs()], [url.URL] with its method [String()]. *)
Variables Certificate PrivateKey Bundle URL : Type.
Variable RootCAs : Bundle -> list Certificate.
Variable URL_String : URL -> string.

Record State := {
  SVID : list Certificate;
  Key : PrivateKey
}.

(** The fields of [RotatorConfig] read by the accessor. *)
Record RotatorConfig := {
  TrustDomain : URL;
  BundleStream : Property (gmap string (option Bundle))
}.

(** The closure [KeysAndBundle] built by [newRotator], over the
    property [state] and the configuration [c]. *)
Definition KeysAndBundle (state : Property State) (c : RotatorConfig)
  : list Certificate * PrivateKey * list Certificate :=
  let s := Value state in
  let bundles := Value (BundleStream c) in
  let rootCAs :=
    match bundles !! URL_String (TrustDomain c) with
    | Some (Some bundle) => RootCAs bundle
    | _ => []
    end in
  (SVID s, Key s, rootCAs).

End Rotator.

Arguments SVID {Certificate PrivateKey} s.
Arguments Key {Certificate PrivateKey} s.
Arguments TrustDomain {Bundle URL} r.
Arguments BundleStream {Bundle URL} r.
Arguments KeysAndBundle {Certificate PrivateKey Bundle URL}
  RootCAs URL_String state c.

End svid.

(** ** Fixtures: a concrete parser, formatter and repository

    Used to run the service on concrete requests.  The parser stands in for
    [spiffeid.TrustDomainFromString] on the strings the tests of the
    package use: an optional [spiffe://] scheme followed by a non-empty
    host of letters, digits, [.], [-] and [_], normalised to lower case;
    anything else is rejected. *)
Module fixture.

Import datastore.

Fixpoint strip_prefix (pre s : string) : option string :=
  match pre, s with
  | EmptyString, _ => Some s
  | String a pre', String b s' =>
      if Ascii.eqb a b then strip_prefix pre' s' else None
  | String _ _, EmptyString => None
  end.

Definition host_char (c : ascii) : bool :=
  let n := nat_of_ascii c in
  (((97 <=? n) && (n <=? 122)) || ((48 <=? n) && (n <=? 57))
   || (n =? 46) || (n =? 45) || (n =? 95))%nat.

Fixpoint all_chars (f : ascii -> bool) (s : string) : bool :=
  match s with
  | EmptyString => true
  | String c rest => f c && all_chars f rest
  end.

#[local] Instance parser : spiffeid.Parser := fun s =>
  let host :=
    strings.ToLower
      (match strip_prefix "spiffe://" s with Some h => h | None => s end) in
  match host with
  | EmptyString =>
      Err (PlainError "spiffeid: trust domain is empty")
  | _ =>
      if all_chars host_char host then Ok {| spiffeid.name := host |}
      else Err (PlainError ("spiffeid: unable to parse: " +:+ s))
  end.

(** [%q] on text without characters to escape; [Sprintf] on a format
    without verbs. *)
#[local] Instance fmt : Fmt := {|
  fmt_q := fun s => String "034"%char (s +:+ String "034"%char EmptyString);
  Sprintf0 := fun format => format
|}.

(** A repository kept in memory: the stored bundles in listing order,
    keyed by their trust-domain id. *)
Definition has_id (id : string) (b : common.Bundle) : bool :=
  String.eqb (common.TrustDomainId b) id.

#[local] Instance memory : DataStore (list common.Bundle) := {|
  FetchBundle := fun id st => (Ok (find (has_id id) st), st);
  ListBundles := fun _ st =>
    (Ok {| Bundles := st; respPagination := None |}, st);
  DeleteBundle := fun id _ st =>
    match find (has_id id) st with
    | Some _ => (None, filter (fun b => negb (has_id id b)) st)
    | None => (Some (StatusError codes.NotFound "no such bundle"), st)
    end
|}.

(** [createBundle] of the tests, without the key material. *)
Definition createBundle (td : string) : common.Bundle :=
  {| common.TrustDomainId := td;
     common.RootCas := [ {| common.DerBytes := [] |} ];
     common.JwtSigningKeys := [];
     common.RefreshHint := 60;
     common.SequenceNumber := 7 |}.

Definition world (st : list common.Bundle) : World (list common.Bundle) :=
  {| store := st; calls := [] |}.

(** The server of the tests: trust domain [example.org]. *)
Definition server : bundle.Service :=
  {| bundle.td := {| spiffeid.name := "example.org" |} |}.

End fixture.

(** ** Statements about the program, used by the properties below *)
Module statement.

Import spiffeid.

(** The mask [applyMask] works with: the default one when none is given. *)
Definition effective (mask : option types.BundleMask) : types.BundleMask :=
  match mask with
  | None => bundle.defaultMask
  | Some m => m
  end.

Definition toX509Certificate (rootCA : common.Certificate)
  : types.X509Certificate :=
  {| types.Asn1 := common.DerBytes rootCA |}.

Definition toJWTKey (key : common.PublicKey) : types.JWTKey :=
  {| types.PublicKey := common.PkixBytes key;
     types.KeyId := common.Kid key;
     types.ExpiresAt := common.NotAfter key |}.

(** [out] is the view of [b] through the flags of [m]: a content field
    whose flag is set holds what [b] stores (the canonical name, for the
    trust domain), a field whose flag is clear is left at its zero value,
    and the sequence number is zero. *)
Definition view `{Parser} (b : common.Bundle) (m : types.BundleMask)
    (out : types.Bundle) : Prop :=
  (if types.mTrustDomain m
   then exists td, TrustDomainFromString (common.TrustDomainId b) = Ok td
                   /\ types.TrustDomain out = String td
   else types.TrustDomain out = ""%string)
  /\ types.RefreshHint out =
       (if types.mRefreshHint m then common.RefreshHint b else 0)
  /\ types.X509Authorities out =
       (if types.mX509Authorities m
        then map toX509Certificate (common.RootCas b) else [])
  /\ types.JwtAuthorities out =
       (if types.mJwtAuthorities m
        then map toJWTKey (common.JwtSigningKeys b) else [])
  /\ types.SequenceNumber out = 0.

(** The mask property as the specification words it: for the bundle and
    the mask at hand [applyMask] yields a view, populated by the flags. *)
Definition applyMask_populates `{Parser} (b : common.Bundle)
    (mask : option types.BundleMask) : Prop :=
  exists out, bundle.applyMask b mask = Ok out /\ view b (effective mask) out.

(** The stored trust-domain id of [b] parses. *)
Definition parses `{Parser} (b : common.Bundle) : Prop :=
  exists td, TrustDomainFromString (common.TrustDomainId b) = Ok td.

(** The code of a per-item status; a nil status reads as [OK], as the
    generated getter [GetCode] has it. *)
Definition GetCode (s : option types.Status) : Z :=
  match s with
  | None => codes.int32 codes.OK
  | Some st => types.Code st
  end.

(** Two strings that differ at most in the case of their ASCII letters. *)
Definition EqualFold (a b : string) : Prop :=
  strings.ToLower a = strings.ToLower b.

(** [IsStorable] as the specification words it: true exactly when some
    selector has the type [svidstoreType] up to letter case. *)
Definition IsStorable_ignores_case (svidstoreType : string)
    (selectors : list common.Selector) : Prop :=
  pipe.IsStorable svidstoreType selectors = true
  <-> exists s, In s selectors /\ EqualFold (common.Type_ s) svidstoreType.

(** [Push(nil)] as the specification words it: the call returns at once
    and leaves the pipe as it found it. *)
Definition Push_nil_is_noop {SVIDUpdate : Type} (p : pipe.state SVIDUpdate)
  : Prop :=
  pipe.Push None p = Some p.

(** The event the worker is about to put on [outCh], if any. *)
Definition forwarding {SVIDUpdate : Type} (w : pipe.worker SVIDUpdate)
  : option (pipe.event SVIDUpdate) :=
  match w with
  | pipe.AtSelect e | pipe.AtDiscard e | pipe.AtSend e => Some e
  | _ => None
  end.

(** What holds of the pipe between any two steps: the queue of [outCh] is
    within its capacity; no nil is queued, was received, or is about to be
    sent; a consumer waits only on an empty queue; no [Push] is in progress
    on a closed pipe. *)
Record pipe_invariant {SVIDUpdate : Type} (p : pipe.state SVIDUpdate)
  : Prop := {
  within_capacity : (length (pipe.outCh p) <= pipe.bufferSize p)%nat;
  queued_not_nil : ~ In None (pipe.outCh p);
  received_not_nil : ~ In None (pipe.received p);
  forwarding_not_nil : forwarding (pipe.forwarder p) <> Some None;
  waiting_on_empty : pipe.receiving p = true -> pipe.outCh p = [];
  closed_no_senders : pipe.closed p = true -> pipe.senders p = []
}.

(** The stored bundle [b] is the bundle of the server's own trust domain:
    its id parses to the trust domain of the server. *)
Definition isOwn `{Parser} (s : bundle.Service) (b : common.Bundle) : bool :=
  match TrustDomainFromString (common.TrustDomainId b) with
  | Ok td' => (Compare (bundle.td s) td' =? 0)%Z
  | Err _ => false
  end.

(** The trust domains of a batch that reach the repository: those of the
    strings that parse to a trust domain other than the server's own, in
    input order. *)
Fixpoint deleteTargets `{Parser} (s : bundle.Service)
    (trustDomains : list string) : list TrustDomain :=
  match trustDomains with
  | [] => []
  | trustDomain :: rest =>
      match TrustDomainFromString trustDomain with
      | Ok td' =>
          if (Compare (bundle.td s) td' =? 0)%Z then deleteTargets s rest
          else td' :: deleteTargets s rest
      | Err _ => deleteTargets s rest
      end
  end.

(** The request that deletes the bundle of [td']. *)
Definition deleteCall (td' : TrustDomain) : datastore.Call :=
  datastore.CallDeleteBundle (String td') datastore.RESTRICT.

(** The last [n] items of [l]. *)
Definition keep_last {A : Type} (n : nat) (l : list A) : list A :=
  skipn (length l - n) l.

(** The events handed to [Push] along a schedule, in call order. *)
Fixpoint pushed {SVIDUpdate : Type} (schedule : list (pipe.action SVIDUpdate))
  : list (pipe.event SVIDUpdate) :=
  match schedule with
  | [] => []
  | pipe.DoPush e :: rest => e :: pushed rest
  | _ :: rest => pushed rest
  end.

(** The event the worker has in hand, if any. *)
Definition held {SVIDUpdate : Type} (w : pipe.worker SVIDUpdate)
  : list (pipe.event SVIDUpdate) :=
  match w with
  | pipe.AtNilCheck e | pipe.AtSelect e | pipe.AtDiscard e | pipe.AtSend e =>
      [e]
  | _ => []
  end.

(** Every event the pipe knows of: received by the consumer, queued on
    [outCh], in the hand of the worker, or offered by a blocked [Push]. *)
Definition contents {SVIDUpdate : Type} (p : pipe.state SVIDUpdate)
  : list (pipe.event SVIDUpdate) :=
  pipe.received p ++ pipe.outCh p ++ held (pipe.forwarder p)
  ++ pipe.senders p.

(** An event that is not nil. *)
Definition is_update {SVIDUpdate : Type} (e : pipe.event SVIDUpdate) : bool :=
  match e with
  | Some _ => true
  | None => false
  end.

(** The steps of a run in which the consumer and [Close] stay away and the
    worker takes the blocked [Push] calls in the order they were made. *)
Definition producer_step {SVIDUpdate : Type} (a : pipe.action SVIDUpdate)
  : bool :=
  match a with
  | pipe.DoPush _ | pipe.DoHandoff 0 | pipe.DoForward => true
  | _ => false
  end.

(** The updates on their way to the consumer, oldest first: queued, in the
    hand of the worker, offered by a blocked [Push]. *)
Definition alive {SVIDUpdate : Type} (p : pipe.state SVIDUpdate)
  : list (pipe.event SVIDUpdate) :=
  List.filter is_update
    (pipe.outCh p ++ held (pipe.forwarder p) ++ pipe.senders p).

(** What holds along a run of producer steps after the updates [updates]
    were pushed: the updates on their way are the last of them, and if any
    was dropped the buffer is full, or about to be again. *)
Definition coalescing {SVIDUpdate : Type}
    (updates : list (pipe.event SVIDUpdate)) (p : pipe.state SVIDUpdate)
  : Prop :=
  (exists dropped,
     updates = dropped ++ alive p
     /\ (dropped = []
         \/ (pipe.bufferSize p
              <= length (pipe.outCh p)
                 + match pipe.forwarder p with
                   | pipe.AtSend _ => 1
                   | _ => 0
                   end)%nat))
  /\ (forall e, pipe.forwarder p = pipe.AtDiscard e ->
                (pipe.bufferSize p <= length (pipe.outCh p))%nat)
  /\ pipe.received p = [] /\ pipe.receiving p = false
  /\ pipe.closed p = false /\ pipe.closing p = false.

(** The steps of a run in which the worker takes the blocked [Push] calls
    in the order they were made. *)
Definition fifo_step {SVIDUpdate : Type} (a : pipe.action SVIDUpdate) : bool :=
  match a with
  | pipe.DoHandoff (S _) => false
  | _ => true
  end.

(** The pipe at rest: open, the worker waiting at [range inCh], no [Push]
    in progress, the consumer not waiting. *)
Definition at_rest {SVIDUpdate : Type} (p : pipe.state SVIDUpdate) : Prop :=
  pipe.forwarder p = pipe.AtRange /\ pipe.senders p = []
  /\ pipe.receiving p = false /\ pipe.closed p = false
  /\ pipe.closing p = false.

(** How closing goes: a [Close] waiting for the worker has closed the
    intake already; a worker that has left its loop did so on a closed
    intake and has woken the consumer. *)
Record close_invariant {SVIDUpdate : Type} (p : pipe.state SVIDUpdate)
  : Prop := {
  closing_closed : pipe.closing p = true -> pipe.closed p = true;
  exited_closed : pipe.forwarder p = pipe.Exited -> pipe.closed p = true;
  exited_not_receiving :
    pipe.forwarder p = pipe.Exited -> pipe.receiving p = false
}.

End statement.

(* ===================================================================== *)
(** * Part II: properties                                                 *)
(* ===================================================================== *)

(** ** Trust domains *)

Lemma Compare_refl (td : spiffeid.TrustDomain) : spiffeid.Compare td td = 0.
Proof.
  unfold spiffeid.Compare.
  pose proof (String.compare_antisym (spiffeid.name td) (spiffeid.name td))
    as Hanti.
  destruct (String.compare (spiffeid.name td) (spiffeid.name td));
    simpl in Hanti; congruence.
Qed.

Lemma Compare_eq_iff (td other : spiffeid.TrustDomain) :
  spiffeid.Compare td other = 0 <-> td = other.
Proof.
  split.
  - unfold spiffeid.Compare.
    destruct (String.compare (spiffeid.name td) (spiffeid.name other)) eqn:Hc;
      try discriminate.
    intros _. apply String.compare_eq_iff in Hc.
    destruct td, other; simpl in *; congruence.
  - intros ->. apply Compare_refl.
Qed.

Lemma string_length_append (a b : string) :
  String.length (a +:+ b) = (String.length a + String.length b)%nat.
Proof. induction a as [|c a IH]; simpl; [reflexivity | now rewrite IH]. Qed.

(** The SPIFFE ID of a trust domain is never its bare name. *)
Lemma IDString_neq_String (td : spiffeid.TrustDomain) :
  spiffeid.IDString td <> spiffeid.String td.
Proof.
  unfold spiffeid.IDString, spiffeid.String. intros Heq.
  apply (f_equal String.length) in Heq.
  rewrite string_length_append in Heq. simpl in Heq. lia.
Qed.

(** ** The mask *)

Section Mask.

Import statement.
Context `{spiffeid.Parser}.

Lemma fold_append_map {A B} (f : A -> B) (l : list A) (acc : list B) :
  fold_left (fun authorities x => authorities ++ [f x]) l acc
  = acc ++ map f l.
Proof.
  revert acc. induction l as [|x l IH]; intros acc; simpl.
  - now rewrite app_nil_r.
  - rewrite IH, <- app_assoc. reflexivity.
Qed.

Lemma x509Authorities_map rootCas :
  bundle.x509Authorities rootCas = map toX509Certificate rootCas.
Proof. unfold bundle.x509Authorities. apply (fold_append_map toX509Certificate). Qed.

Lemma jwtAuthorities_map keys :
  bundle.jwtAuthorities keys = map toJWTKey keys.
Proof. unfold bundle.jwtAuthorities. apply (fold_append_map toJWTKey). Qed.

(** [applyMask] fails only on the trust-domain id, and only when asked
    for the trust domain. *)
Lemma applyMask_Err b mask err :
  bundle.applyMask b mask = Err err ->
  types.mTrustDomain (effective mask) = true
  /\ spiffeid.TrustDomainFromString (common.TrustDomainId b) = Err err.
Proof.
  unfold bundle.applyMask. fold (effective mask).
  destruct (types.mTrustDomain (effective mask)); [|discriminate].
  destruct (spiffeid.TrustDomainFromString (common.TrustDomainId b));
    [discriminate|].
  intros [= ->]. split; reflexivity.
Qed.

Lemma applyMask_Ok b mask out :
  bundle.applyMask b mask = Ok out -> view b (effective mask) out.
Proof.
  unfold bundle.applyMask, view. fold (effective mask).
  rewrite x509Authorities_map, jwtAuthorities_map.
  destruct (effective mask) as [fTD fRH fSN fX fJ]; simpl.
  destruct fTD;
    [destruct (spiffeid.TrustDomainFromString (common.TrustDomainId b))
       as [td|e] eqn:Hparse; [|discriminate]|];
    intros [= <-]; destruct fRH, fSN, fX, fJ; simpl; eauto 10.
Qed.

(** A bundle whose id parses is always projected. *)
Lemma applyMask_parsed b mask td :
  spiffeid.TrustDomainFromString (common.TrustDomainId b) = Ok td ->
  exists out, bundle.applyMask b mask = Ok out.
Proof.
  intros Hparse.
  destruct (bundle.applyMask b mask) as [out|err] eqn:Happly; [eauto|].
  apply applyMask_Err in Happly as [_ Herr]. congruence.
Qed.

End Mask.

(** C2 (as amended).  For every bundle [b] and every mask (an absent mask
    standing for the default, all-true one), [applyMask] either returns a
    view in which each of the four content fields holds what [b] stores
    when its flag is set and its zero value when the flag is clear, with
    the sequence number zero whatever [b] stores and whatever the
    sequence-number flag says; or it returns no view but the parse error of
    the stored trust-domain id, which happens only when the trust-domain
    flag is set. *)
Theorem applyMask_view_or_parse_error `{spiffeid.Parser}
    (b : common.Bundle) (mask : option types.BundleMask) :
  match bundle.applyMask b mask with
  | Ok out => statement.view b (statement.effective mask) out
  | Err err =>
      types.mTrustDomain (statement.effective mask) = true
      /\ spiffeid.TrustDomainFromString (common.TrustDomainId b) = Err err
  end.
Proof.
  destruct (bundle.applyMask b mask) as [out|err] eqn:Happly.
  - now apply applyMask_Ok.
  - now apply applyMask_Err.
Qed.

(** C2, counterexample.  A stored bundle whose trust-domain id does not
    parse, under the absent mask: the trust-domain flag is set, yet no view
    comes back at all. *)
Lemma applyMask_corrupt_id_no_view :
  ~ statement.applyMask_populates (H := fixture.parser)
      (fixture.createBundle "invalid TD") None.
Proof.
  intros [out [Happly _]]. vm_compute in Happly. discriminate.
Qed.

(** ** The federated bundle service *)

Section ServiceProperties.

Import statement datastore.
Context `{spiffeid.Parser} `{Fmt} {St : Type} `{DataStore St}.
Implicit Types (s : bundle.Service) (w : World St).

(** Unfolds one handler down to the repository operations. *)
Ltac run_handler :=
  unfold bundle.GetBundle, bundle.GetFederatedBundle,
    bundle.deleteFederatedBundle, bundle.ListFederatedBundles,
    bundle.BatchDeleteFederatedBundle,
    mbind, M_bind, bind, request, ret; simpl.

(** *** One item of a batch delete *)

Lemma delete_malformed s trustDomain err w :
  spiffeid.TrustDomainFromString trustDomain = Err err ->
  bundle.deleteFederatedBundle s trustDomain w
  = (Some (StatusError codes.InvalidArgument
             ("malformed trust domain: " +:+ Error err)), w).
Proof. intros Hparse. run_handler. now rewrite Hparse. Qed.

Lemma delete_own s trustDomain td' w :
  spiffeid.TrustDomainFromString trustDomain = Ok td' ->
  spiffeid.Compare (bundle.td s) td' = 0 ->
  bundle.deleteFederatedBundle s trustDomain w
  = (Some (StatusError codes.InvalidArgument
             "no possible to delete server bundle"), w).
Proof. intros Hparse Hown. run_handler. now rewrite Hparse, Hown. Qed.

Lemma delete_federated s trustDomain td' w err st' :
  spiffeid.TrustDomainFromString trustDomain = Ok td' ->
  spiffeid.Compare (bundle.td s) td' <> 0 ->
  DeleteBundle (spiffeid.String td') RESTRICT (store w) = (err, st') ->
  bundle.deleteFederatedBundle s trustDomain w
  = (match err with
     | Some err =>
         Some (StatusError codes.Internal
                 ("failed to delete Federated Bundle: " +:+ Error err))
     | None => None
     end,
     {| store := st';
        calls := calls w
                 ++ [CallDeleteBundle (spiffeid.String td') RESTRICT] |}).
Proof.
  intros Hparse Hother Hdel. run_handler. rewrite Hparse.
  apply Z.eqb_neq in Hother. rewrite Hother. run_handler.
  rewrite Hdel. now destruct err.
Qed.

(** The error of an item carries [InvalidArgument] or [Internal], never
    another code: whatever the repository answers to the delete is
    reported as [Internal]. *)
Lemma deleteFederatedBundle_codes s trustDomain w :
  match fst (bundle.deleteFederatedBundle s trustDomain w) with
  | None => True
  | Some err =>
      exists msg,
        err = StatusError codes.InvalidArgument msg
        \/ err = StatusError codes.Internal msg
  end.
Proof.
  destruct (spiffeid.TrustDomainFromString trustDomain) as [td'|e] eqn:Hparse.
  - destruct (Z.eq_dec (spiffeid.Compare (bundle.td s) td') 0) as [Hown|Hother].
    + rewrite (delete_own _ _ _ _ Hparse Hown). simpl. eauto.
    + destruct (DeleteBundle (spiffeid.String td') RESTRICT (store w))
        as [err st'] eqn:Hdel.
      rewrite (delete_federated _ _ _ _ _ _ Hparse Hother Hdel). simpl.
      destruct err; eauto.
  - rewrite (delete_malformed _ _ _ _ Hparse). simpl. eauto.
Qed.

(** *** The loop of a batch delete *)

Lemma deleteLoop_cons s trustDomain rest results w :
  bundle.deleteLoop s (trustDomain :: rest) results w
  = let (err, w') := bundle.deleteFederatedBundle s trustDomain w in
    bundle.deleteLoop s rest
      (results ++ [ {| bundlepb.Status := api.StatusFromError err;
                       bundlepb.TrustDomain := trustDomain |} ]) w'.
Proof. reflexivity. Qed.

(** The loop adds one result per input, in input order, after the results
    it starts from. *)
Lemma deleteLoop_results s trustDomains :
  forall results w,
  exists added w',
    bundle.deleteLoop s trustDomains results w = (results ++ added, w')
    /\ map bundlepb.TrustDomain added = trustDomains.
Proof.
  induction trustDomains as [|trustDomain rest IH]; intros results w.
  - exists [], w. simpl. unfold ret. now rewrite app_nil_r.
  - rewrite deleteLoop_cons.
    destruct (bundle.deleteFederatedBundle s trustDomain w) as [err w1].
    destruct (IH (results ++ [ {| bundlepb.Status := api.StatusFromError err;
                                  bundlepb.TrustDomain := trustDomain |} ]) w1)
      as (added & w' & Hloop & Hmap).
    eexists (_ :: added), w'. split.
    + rewrite Hloop, <- app_assoc. reflexivity.
    + simpl. now rewrite Hmap.
Qed.

Lemma BatchDelete_nonempty s req w :
  bundlepb.TrustDomains req <> [] ->
  bundle.BatchDeleteFederatedBundle s req w
  = let (results, w') := bundle.deleteLoop s (bundlepb.TrustDomains req) [] w in
    (Ok {| bundlepb.Results := results |}, w').
Proof.
  intros Hne. run_handler.
  destruct (bundlepb.TrustDomains req); [congruence|]. reflexivity.
Qed.

End ServiceProperties.

(** C4.  [BatchDeleteFederatedBundle] fails as a whole if and only if its
    input is empty.  On the empty input it returns [InvalidArgument] and
    leaves the world as it was: no request reaches the repository.  On any
    other input it returns a response with one result per input string, in
    input order, whatever happened to the items. *)
Theorem BatchDelete_fails_iff_empty
    `{spiffeid.Parser} `{Fmt} {St : Type} `{datastore.DataStore St}
    (s : bundle.Service) (req : bundlepb.BatchDeleteFederatedBundleRequest)
    (w : datastore.World St) :
  ((exists err, fst (bundle.BatchDeleteFederatedBundle s req w) = Err err)
   <-> bundlepb.TrustDomains req = [])
  /\ match bundlepb.TrustDomains req with
     | [] =>
         bundle.BatchDeleteFederatedBundle s req w
         = (Err (StatusError codes.InvalidArgument
                   "request missing trust domains"), w)
     | _ :: _ =>
         exists results w',
           bundle.BatchDeleteFederatedBundle s req w
           = (Ok {| bundlepb.Results := results |}, w')
           /\ length results = length (bundlepb.TrustDomains req)
           /\ map bundlepb.TrustDomain results = bundlepb.TrustDomains req
     end.
Proof.
  destruct (bundlepb.TrustDomains req) as [|trustDomain rest] eqn:Hreq.
  - assert (Hempty : bundle.BatchDeleteFederatedBundle s req w
                     = (Err (StatusError codes.InvalidArgument
                               "request missing trust domains"), w)).
    { unfold bundle.BatchDeleteFederatedBundle. now rewrite Hreq. }
    split; [|exact Hempty]. rewrite Hempty. simpl. split; eauto.
  - assert (Hne : bundlepb.TrustDomains req <> []) by congruence.
    pose proof (BatchDelete_nonempty s req w Hne) as Hrun.
    destruct (deleteLoop_results s (bundlepb.TrustDomains req) [] w)
      as (added & w' & Hloop & Hmap).
    rewrite Hloop in Hrun. simpl in Hrun.
    split.
    + rewrite Hrun. simpl. split; [intros [err Herr]|]; discriminate.
    + exists added, w'. rewrite <- Hreq. repeat split; try assumption.
      apply (f_equal (@length _)) in Hmap. now rewrite length_map in Hmap.
Qed.

(** C1.  A batch of three: [a] malformed, [b] deleted by the repository,
    [c] refused by the repository with whatever error (not found, say).
    The call succeeds with three results in input order; the codes are
    [InvalidArgument] for [a], [OK] (a nil status) for [b], and [Internal],
    not [NotFound], for [c]. *)
Theorem BatchDelete_malformed_deleted_absent
    `{spiffeid.Parser} `{Fmt} {St : Type} `{datastore.DataStore St}
    (s : bundle.Service) (a b c : string) (w : datastore.World St)
    (e : error) (tdb tdc : spiffeid.TrustDomain) (st1 st2 : St) (err : error) :
  spiffeid.TrustDomainFromString a = Err e ->
  spiffeid.TrustDomainFromString b = Ok tdb ->
  spiffeid.Compare (bundle.td s) tdb <> 0 ->
  spiffeid.TrustDomainFromString c = Ok tdc ->
  spiffeid.Compare (bundle.td s) tdc <> 0 ->
  datastore.DeleteBundle (spiffeid.String tdb) datastore.RESTRICT
    (datastore.store w) = (None, st1) ->
  datastore.DeleteBundle (spiffeid.String tdc) datastore.RESTRICT st1
  = (Some err, st2) ->
  exists results w',
    bundle.BatchDeleteFederatedBundle s {| bundlepb.TrustDomains := [a; b; c] |} w
    = (Ok {| bundlepb.Results := results |}, w')
    /\ map bundlepb.TrustDomain results = [a; b; c]
    /\ map (fun r => statement.GetCode (bundlepb.Status r)) results
       = [codes.int32 codes.InvalidArgument; codes.int32 codes.OK;
          codes.int32 codes.Internal]
    /\ datastore.calls w'
       = datastore.calls w
         ++ [datastore.CallDeleteBundle (spiffeid.String tdb) datastore.RESTRICT;
             datastore.CallDeleteBundle (spiffeid.String tdc) datastore.RESTRICT].
Proof.
  intros Ha Hb Hnb Hc Hnc Hdelb Hdelc.
  rewrite BatchDelete_nonempty by discriminate. simpl bundlepb.TrustDomains.
  rewrite deleteLoop_cons, (delete_malformed s a e w Ha). cbv beta iota.
  rewrite deleteLoop_cons, (delete_federated s b tdb w None st1 Hb Hnb Hdelb).
  cbv beta iota.
  rewrite deleteLoop_cons.
  erewrite (delete_federated s c tdc _ (Some err) st2 Hc Hnc); [|exact Hdelc].
  simpl. unfold datastore.ret. do 2 eexists. split; [reflexivity|].
  simpl. rewrite <- app_assoc. repeat split.
Qed.

(** C1, at a concrete input: the server [example.org], a repository holding
    [td1.org] only, and the batch [malformed TD], [td1.org],
    [notfound.org]. *)
Lemma BatchDelete_malformed_deleted_absent_witness :
  exists results w',
    bundle.BatchDeleteFederatedBundle
      (H := fixture.parser) (H0 := fixture.fmt) (H1 := fixture.memory)
      fixture.server
      {| bundlepb.TrustDomains := ["malformed TD"; "td1.org"; "notfound.org"] |}
      (fixture.world [fixture.createBundle "td1.org"])
    = (Ok {| bundlepb.Results := results |}, w')
    /\ map bundlepb.TrustDomain results
       = ["malformed TD"; "td1.org"; "notfound.org"]
    /\ map (fun r => statement.GetCode (bundlepb.Status r)) results
       = [3; 0; 13]
    /\ datastore.calls w'
       = [datastore.CallDeleteBundle "td1.org" datastore.RESTRICT;
          datastore.CallDeleteBundle "notfound.org" datastore.RESTRICT].
Proof.
  apply (BatchDelete_malformed_deleted_absent
           (H := fixture.parser) (H0 := fixture.fmt) (H1 := fixture.memory)
           fixture.server "malformed TD" "td1.org" "notfound.org"
           (fixture.world [fixture.createBundle "td1.org"])
           (PlainError "spiffeid: unable to parse: malformed TD")
           {| spiffeid.name := "td1.org" |}
           {| spiffeid.name := "notfound.org" |}
           [] []
           (StatusError codes.NotFound "no such bundle")).
  - vm_compute. reflexivity.
  - vm_compute. reflexivity.
  - vm_compute. discriminate.
  - vm_compute. reflexivity.
  - vm_compute. discriminate.
  - vm_compute. reflexivity.
  - vm_compute. reflexivity.
Defined.

(** C3.  A trust-domain string that parses to the trust domain of the
    server, or that does not parse, makes [GetFederatedBundle] fail with
    [InvalidArgument], whatever the mask and the repository; the world is
    left as it was, so nothing is fetched. *)
Theorem GetFederatedBundle_own_or_malformed
    `{spiffeid.Parser} `{Fmt} {St : Type} `{datastore.DataStore St}
    (s : bundle.Service) (req : bundlepb.GetFederatedBundleRequest)
    (w : datastore.World St) :
  spiffeid.TrustDomainFromString (bundlepb.gfTrustDomain req) = Ok (bundle.td s)
  \/ (exists err,
        spiffeid.TrustDomainFromString (bundlepb.gfTrustDomain req) = Err err) ->
  exists msg,
    bundle.GetFederatedBundle s req w
    = (Err (StatusError codes.InvalidArgument msg), w).
Proof.
  intros [Hown | [err Herr]]; unfold bundle.GetFederatedBundle.
  - rewrite Hown, Compare_refl. simpl. eexists. reflexivity.
  - rewrite Herr. eexists. reflexivity.
Qed.

(** C3, at a concrete input: the server [example.org] is asked for
    [spiffe://EXAMPLE.org] while the repository holds a bundle under that
    very id. *)
Lemma GetFederatedBundle_own_or_malformed_witness :
  exists msg,
    bundle.GetFederatedBundle
      (H := fixture.parser) (H0 := fixture.fmt) (H1 := fixture.memory)
      fixture.server
      {| bundlepb.gfTrustDomain := "spiffe://EXAMPLE.org";
         bundlepb.gfOutputMask := None |}
      (fixture.world [fixture.createBundle "spiffe://example.org"])
    = (Err (StatusError codes.InvalidArgument msg),
       fixture.world [fixture.createBundle "spiffe://example.org"]).
Proof.
  apply (GetFederatedBundle_own_or_malformed
           (H := fixture.parser) (H0 := fixture.fmt) (H1 := fixture.memory)).
  left. vm_compute. reflexivity.
Defined.

(** *** Listing *)

Section Listing.

Import statement datastore.
Context `{spiffeid.Parser} `{Fmt} {St : Type} `{DataStore St}.

Lemma listLoop_cons s mask dsBundle rest bundles :
  bundle.listLoop s mask (dsBundle :: rest) bundles
  = match spiffeid.TrustDomainFromString (common.TrustDomainId dsBundle) with
    | Err _ =>
        Err (StatusError codes.Internal
               ("bundle has an invalid trust domain ID: "
                  +:+ fmt_q (common.TrustDomainId dsBundle)))
    | Ok td' =>
        if (spiffeid.Compare (bundle.td s) td' =? 0)%Z
        then bundle.listLoop s mask rest bundles
        else match bundle.applyMask dsBundle mask with
             | Err err =>
                 Err (StatusError codes.Internal
                        ("failed to apply mask: " +:+ Error err))
             | Ok b => bundle.listLoop s mask rest (bundles ++ [b])
             end
    end.
Proof. reflexivity. Qed.

(** The loop stops with [Internal] as soon as a stored id does not parse,
    and it cannot end well past such a record. *)
Lemma listLoop_corrupt s mask dsBundles :
  forall bundles,
    Exists (fun b => ~ parses b) dsBundles ->
    exists msg,
      bundle.listLoop s mask dsBundles bundles
      = Err (StatusError codes.Internal msg).
Proof.
  induction dsBundles as [|dsBundle rest IH]; intros bundles Hcorrupt.
  - inversion Hcorrupt.
  - rewrite listLoop_cons.
    destruct (spiffeid.TrustDomainFromString (common.TrustDomainId dsBundle))
      as [td'|e] eqn:Hparse; [|eauto].
    assert (Hrest : Exists (fun b => ~ parses b) rest).
    { inversion Hcorrupt as [? ? Hhead|]; [|assumption].
      exfalso. apply Hhead. now exists td'. }
    destruct (spiffeid.Compare (bundle.td s) td' =? 0)%Z; [now apply IH|].
    destruct (bundle.applyMask dsBundle mask); [now apply IH | eauto].
Qed.

(** Conversely the loop ends well on records that all parse: the mask
    cannot fail where the id has just been parsed. *)
Lemma listLoop_parsed s mask dsBundles :
  forall bundles,
    Forall parses dsBundles ->
    exists listed, bundle.listLoop s mask dsBundles bundles = Ok listed.
Proof.
  induction dsBundles as [|dsBundle rest IH]; intros bundles Hall.
  - simpl. eauto.
  - rewrite listLoop_cons. inversion Hall as [|? ? [td' Hparse] Hrest]; subst.
    rewrite Hparse.
    destruct (spiffeid.Compare (bundle.td s) td' =? 0)%Z; [now apply IH|].
    destruct (applyMask_parsed dsBundle mask td' Hparse) as [b ->].
    now apply IH.
Qed.

Lemma ListFederatedBundles_run s req (w : World St) dsResp st' :
  ListBundles (bundle.listReq req) (store w) = (Ok dsResp, st') ->
  bundle.ListFederatedBundles s req w
  = (match bundle.listLoop s (bundlepb.lfOutputMask req) (Bundles dsResp) [] with
     | Err err => Err err
     | Ok bundles =>
         Ok {| bundlepb.Bundles := bundles;
               bundlepb.NextPageToken :=
                 match respPagination dsResp with
                 | Some p => Token p
                 | None => ""%string
                 end |}
     end,
     {| store := st';
        calls := calls w ++ [CallListBundles (bundle.listReq req)] |}).
Proof.
  intros Hlist.
  unfold bundle.ListFederatedBundles, mbind, M_bind, bind, request, ret.
  rewrite Hlist.
  now destruct (bundle.listLoop s (bundlepb.lfOutputMask req) (Bundles dsResp) []).
Qed.

End Listing.

(** C6.  When the repository answers a listing with bundles of which one
    has a trust-domain id that does not parse, [ListFederatedBundles]
    returns [Internal] and no list: the record is not skipped.  Put the
    other way round, a response that lists bundles means every record the
    repository returned had an id that parses. *)
Theorem ListFederatedBundles_fail_fast
    `{spiffeid.Parser} `{Fmt} {St : Type} `{datastore.DataStore St}
    (s : bundle.Service) (req : bundlepb.ListFederatedBundlesRequest)
    (w : datastore.World St) (dsResp : datastore.ListBundlesResponse)
    (st' : St) :
  datastore.ListBundles (bundle.listReq req) (datastore.store w)
  = (Ok dsResp, st') ->
  (Exists (fun b => ~ statement.parses b) (datastore.Bundles dsResp) ->
   exists msg,
     fst (bundle.ListFederatedBundles s req w)
     = Err (StatusError codes.Internal msg))
  /\ (forall resp,
        fst (bundle.ListFederatedBundles s req w) = Ok resp ->
        Forall statement.parses (datastore.Bundles dsResp)).
Proof.
  intros Hlist. rewrite (ListFederatedBundles_run s req w dsResp st' Hlist).
  simpl. split.
  - intros Hcorrupt.
    destruct (listLoop_corrupt s (bundlepb.lfOutputMask req)
                (datastore.Bundles dsResp) [] Hcorrupt) as [msg ->].
    eauto.
  - intros resp Hok. apply Forall_forall. intros b Hin.
    destruct (spiffeid.TrustDomainFromString (common.TrustDomainId b))
      as [td'|e] eqn:Hparse; [now exists td'|].
    assert (Hcorrupt : Exists (fun b => ~ statement.parses b) (datastore.Bundles dsResp)).
    { apply Exists_exists. exists b. split.
      - exact Hin.
      - intros [td' Htd']. congruence. }
    destruct (listLoop_corrupt s (bundlepb.lfOutputMask req)
                (datastore.Bundles dsResp) [] Hcorrupt) as [msg Hmsg].
    rewrite Hmsg in Hok. discriminate.
Qed.

(** C6, at a concrete input: the repository holds [td1.org] and a record
    with the id [invalid TD]. *)
Lemma ListFederatedBundles_fail_fast_witness :
  exists msg,
    fst (bundle.ListFederatedBundles
           (H := fixture.parser) (H0 := fixture.fmt) (H1 := fixture.memory)
           fixture.server
           {| bundlepb.lfPageSize := 0; bundlepb.lfPageToken := "";
              bundlepb.lfOutputMask := None |}
           (fixture.world [fixture.createBundle "td1.org";
                           fixture.createBundle "invalid TD"]))
    = Err (StatusError codes.Internal msg).
Proof.
  apply (ListFederatedBundles_fail_fast
           (H := fixture.parser) (H0 := fixture.fmt) (H1 := fixture.memory)
           fixture.server _ _
           {| datastore.Bundles := [fixture.createBundle "td1.org";
                                    fixture.createBundle "invalid TD"];
              datastore.respPagination := None |}
           [fixture.createBundle "td1.org"; fixture.createBundle "invalid TD"]).
  - vm_compute. reflexivity.
  - apply Exists_cons_tl, Exists_cons_hd.
    intros [td' Hparse]. vm_compute in Hparse. discriminate.
Defined.

(** *** Repository keys *)

(** C10.  For a federated trust domain [td'], the fetch of
    [GetFederatedBundle] asks the repository for [td'.IDString()] while the
    delete of [deleteFederatedBundle] asks it for [td'.String()], in
    restrict mode; [GetBundle] fetches under the [IDString()] of the server.
    The two keys of one trust domain are never the same string. *)
Theorem fetch_and_delete_keys_differ
    `{spiffeid.Parser} `{Fmt} {St : Type} `{datastore.DataStore St}
    (s : bundle.Service) (trustDomain : string) (td' : spiffeid.TrustDomain)
    (mask : option types.BundleMask) (w : datastore.World St) :
  spiffeid.TrustDomainFromString trustDomain = Ok td' ->
  spiffeid.Compare (bundle.td s) td' <> 0 ->
  datastore.calls
    (snd (bundle.GetFederatedBundle s
            {| bundlepb.gfTrustDomain := trustDomain;
               bundlepb.gfOutputMask := mask |} w))
  = datastore.calls w ++ [datastore.CallFetchBundle (spiffeid.IDString td')]
  /\ datastore.calls (snd (bundle.deleteFederatedBundle s trustDomain w))
     = datastore.calls w
       ++ [datastore.CallDeleteBundle (spiffeid.String td') datastore.RESTRICT]
  /\ datastore.calls
       (snd (bundle.GetBundle s {| bundlepb.gbOutputMask := mask |} w))
     = datastore.calls w
       ++ [datastore.CallFetchBundle (spiffeid.IDString (bundle.td s))]
  /\ spiffeid.IDString td' <> spiffeid.String td'.
Proof.
  intros Hparse Hother. repeat split.
  - unfold bundle.GetFederatedBundle. simpl. rewrite Hparse.
    apply Z.eqb_neq in Hother. rewrite Hother.
    unfold mbind, M_bind, datastore.bind, datastore.request, datastore.ret.
    destruct (datastore.FetchBundle (spiffeid.IDString td') (datastore.store w))
      as [[[dsBundle|]|err] st']; simpl; try reflexivity.
    now destruct (bundle.applyMask dsBundle mask).
  - destruct (datastore.DeleteBundle (spiffeid.String td') datastore.RESTRICT
                (datastore.store w)) as [err st'] eqn:Hdel.
    now rewrite (delete_federated s trustDomain td' w err st' Hparse Hother Hdel).
  - unfold bundle.GetBundle, mbind, M_bind, datastore.bind, datastore.request,
      datastore.ret.
    destruct (datastore.FetchBundle (spiffeid.IDString (bundle.td s))
                (datastore.store w)) as [[[dsBundle|]|err] st'];
      simpl; try reflexivity.
    now destruct (bundle.applyMask dsBundle mask).
  - apply IDString_neq_String.
Qed.

(** C10, at a concrete input: the server [example.org] and the federated
    trust domain [td1.org]. *)
Lemma fetch_and_delete_keys_differ_witness :
  datastore.calls
    (snd (bundle.GetFederatedBundle
            (H := fixture.parser) (H0 := fixture.fmt) (H1 := fixture.memory)
            fixture.server
            {| bundlepb.gfTrustDomain := "td1.org";
               bundlepb.gfOutputMask := None |}
            (fixture.world [fixture.createBundle "spiffe://td1.org"])))
  = [datastore.CallFetchBundle "spiffe://td1.org"]
  /\ datastore.calls
       (snd (bundle.deleteFederatedBundle
               (H := fixture.parser) (H1 := fixture.memory)
               fixture.server "td1.org"
               (fixture.world [fixture.createBundle "spiffe://td1.org"])))
     = [datastore.CallDeleteBundle "td1.org" datastore.RESTRICT].
Proof.
  destruct (fetch_and_delete_keys_differ
              (H := fixture.parser) (H0 := fixture.fmt) (H1 := fixture.memory)
              fixture.server "td1.org" {| spiffeid.name := "td1.org" |} None
              (fixture.world [fixture.createBundle "spiffe://td1.org"]))
    as (Hfetch & Hdelete & _ & _).
  - vm_compute. reflexivity.
  - vm_compute. discriminate.
  - split; [exact Hfetch | exact Hdelete].
Defined.

(** ** The buffered pipe *)

Section PipeProperties.

Import statement pipe.
Context {SVIDUpdate : Type}.
Implicit Types (p : state SVIDUpdate) (e : event SVIDUpdate).

Lemma BufferedPipe_invariant size p :
  BufferedPipe SVIDUpdate size = Some p ->
  pipe_invariant p /\ bufferSize p = Z.to_nat size.
Proof.
  unfold BufferedPipe. destruct (size <? 0)%Z; [discriminate|].
  intros [= <-]. split; [|reflexivity].
  constructor; simpl; try discriminate; try tauto. lia.
Qed.

(** A send that does not wait keeps the invariant, given a non-nil item. *)
Lemma trySend_invariant e p p' :
  pipe_invariant p -> e <> None -> trySend e p = Some p' ->
  pipe_invariant (set_forwarder AtRange p').
Proof.
  intros [Hcap Hq Hr Hf Hw Hc] He. unfold trySend.
  destruct (receiving p) eqn:Hrecv.
  - intros [= <-]. constructor; simpl; auto; try discriminate.
    rewrite in_app_iff. simpl. intuition congruence.
  - destruct (length (outCh p) <? bufferSize p)%nat eqn:Hroom; [|discriminate].
    intros [= <-]. apply Nat.ltb_lt in Hroom.
    constructor; simpl; auto; try discriminate; try congruence.
    + rewrite length_app. simpl. lia.
    + rewrite in_app_iff. simpl. intuition congruence.
Qed.

Lemma Forward_invariant p p' :
  pipe_invariant p -> Forward p = Some p' -> pipe_invariant p'.
Proof.
  intros Hinv. pose proof Hinv as [Hcap Hq Hr Hf Hw Hc]. unfold Forward.
  destruct (forwarder p) as [|[u|]|e|e|e|] eqn:Hfw; simpl in Hf.
  - destruct (closed p); [|discriminate]. intros [= <-].
    constructor; simpl; auto; discriminate.
  - intros [= <-]. constructor; simpl; auto; discriminate.
  - intros [= <-]. constructor; simpl; auto; discriminate.
  - destruct (trySend e p) as [p1|] eqn:Hsend; intros [= <-].
    + apply (trySend_invariant e p p1 Hinv); [|exact Hsend].
      intros ->. now apply Hf.
    + constructor; simpl; auto.
  - destruct (outCh p) as [|oldest rest] eqn:Hout; [discriminate|].
    intros [= <-]. simpl in *. constructor; simpl; auto.
    + lia.
    + intros Hrecv. specialize (Hw Hrecv). discriminate.
  - destruct (trySend e p) as [p1|] eqn:Hsend; [|discriminate].
    intros [= <-].
    apply (trySend_invariant e p p1 Hinv); [|exact Hsend].
      intros ->. now apply Hf.
  - discriminate.
Qed.

Lemma step_invariant a p p' :
  pipe_invariant p -> step a p = Some p' -> pipe_invariant p'.
Proof.
  intros Hinv. pose proof Hinv as [Hcap Hq Hr Hf Hw Hc].
  destruct a as [e|i| | | |]; simpl.
  - unfold Push. destruct (closing p); [discriminate|].
    destruct (closed p) eqn:Hclosed; intros [= <-]; [assumption|].
    constructor; simpl; auto. congruence.
  - unfold Handoff. destruct (forwarder p) eqn:Hfw; try discriminate.
    destruct (senders p !! i) as [e|] eqn:Hi; [|discriminate].
    intros [= <-]. constructor; simpl; auto; try discriminate.
    intros Hclosed. rewrite (Hc Hclosed) in Hi. discriminate.
  - now apply Forward_invariant.
  - unfold Receive. destruct (receiving p) eqn:Hrecv; [discriminate|].
    destruct (outCh p) as [|e rest] eqn:Hout.
    + clear Hcap Hq Hr Hf Hw Hc.
      destruct (forwarder p) eqn:Hfw; intros [= <-]; try assumption;
        destruct Hinv; constructor; simpl; auto;
        rewrite <- Hfw; assumption.
    + intros [= <-]. simpl in *. constructor; simpl; auto.
      * lia.
      * rewrite in_app_iff. simpl. intuition congruence.
      * congruence.
  - unfold Close. destruct (closing p); [discriminate|].
    destruct (senders p) eqn:Hs; [|discriminate].
    destruct (closed p); intros [= <-]; [assumption|].
    constructor; simpl; auto.
  - unfold CloseReturn. destruct (closing p); [|discriminate].
    destruct (forwarder p); try discriminate.
    intros [= <-]. destruct Hinv. constructor; simpl; auto.
Qed.

(** The invariant holds all along every schedule. *)
Lemma run_invariant schedule :
  forall p p', pipe_invariant p -> run schedule p = Some p' -> pipe_invariant p'.
Proof.
  induction schedule as [|a rest IH]; intros p p' Hinv; simpl.
  - now intros [= <-].
  - destruct (step a p) as [p1|] eqn:Hstep; [|discriminate].
    apply IH. eapply step_invariant; eauto.
Qed.

Lemma trySend_bufferSize e p p' :
  trySend e p = Some p' -> bufferSize p' = bufferSize p.
Proof.
  unfold trySend. destruct (receiving p); [now intros [= <-]|].
  destruct (length (outCh p) <? bufferSize p)%nat; [|discriminate].
  now intros [= <-].
Qed.

Lemma step_bufferSize a p p' :
  step a p = Some p' -> bufferSize p' = bufferSize p.
Proof.
  destruct a as [e|i| | | |]; simpl.
  - unfold Push. destruct (closing p); [discriminate|].
    destruct (closed p); now intros [= <-].
  - unfold Handoff. destruct (forwarder p); try discriminate.
    destruct (senders p !! i); [|discriminate]. now intros [= <-].
  - unfold Forward. destruct (forwarder p) as [|[u|]|e|e|e|].
    + destruct (closed p); [|discriminate]. now intros [= <-].
    + now intros [= <-].
    + now intros [= <-].
    + destruct (trySend e p) as [p1|] eqn:Hsend; intros [= <-]; simpl;
        [now apply (trySend_bufferSize e) | reflexivity].
    + destruct (outCh p); [discriminate|]. now intros [= <-].
    + destruct (trySend e p) as [p1|] eqn:Hsend; [|discriminate].
      intros [= <-]. simpl. now apply (trySend_bufferSize e).
    + discriminate.
  - unfold Receive. destruct (receiving p); [discriminate|].
    destruct (outCh p); [destruct (forwarder p)|]; now intros [= <-].
  - unfold Close. destruct (closing p); [discriminate|].
    destruct (senders p); [|discriminate].
    destruct (closed p); now intros [= <-].
  - unfold CloseReturn. destruct (closing p); [|discriminate].
    destruct (forwarder p); try discriminate. now intros [= <-].
Qed.

Lemma run_bufferSize schedule :
  forall p p', run schedule p = Some p' -> bufferSize p' = bufferSize p.
Proof.
  induction schedule as [|a rest IH]; intros p p'; simpl.
  - now intros [= <-].
  - destruct (step a p) as [p1|] eqn:Hstep; [|discriminate].
    intros Hrun. rewrite (IH _ _ Hrun). eapply step_bufferSize; eauto.
Qed.

Lemma run_app s1 s2 p :
  run (s1 ++ s2) p
  = match run s1 p with Some p1 => run s2 p1 | None => None end.
Proof.
  revert p. induction s1 as [|a s1 IH]; intros p; simpl; [reflexivity|].
  destruct (step a p); [apply IH | reflexivity].
Qed.

(** The output buffer of a pipe of capacity [size] never holds more than
    [size] items. *)
Lemma outCh_bounded size p0 schedule p :
  BufferedPipe SVIDUpdate size = Some p0 -> run schedule p0 = Some p ->
  (length (outCh p) <= Z.to_nat size)%nat.
Proof.
  intros Hnew Hrun. destruct (BufferedPipe_invariant _ _ Hnew) as [Hinv Hsize].
  rewrite <- Hsize, <- (run_bufferSize _ _ _ Hrun).
  apply (run_invariant _ _ _ Hinv Hrun).
Qed.

(** Left alone by the consumer, the worker that finds the buffer full
    discards the oldest item and queues the new one. *)
Lemma Forward_drops_oldest p e oldest rest :
  forwarder p = AtSelect e -> receiving p = false ->
  outCh p = oldest :: rest -> length (outCh p) = bufferSize p ->
  exists p',
    run [DoForward; DoForward; DoForward] p = Some p'
    /\ outCh p' = rest ++ [e] /\ forwarder p' = AtRange
    /\ received p' = received p.
Proof.
  intros Hfw Hrecv Hout Hfull. simpl.
  unfold Forward at 1. rewrite Hfw. unfold trySend.
  rewrite Hrecv, Hfull, Nat.ltb_irrefl.
  unfold Forward at 1. simpl. rewrite Hout.
  unfold Forward at 1. simpl. unfold trySend. simpl. rewrite Hrecv.
  assert (Hroom : (length rest <? bufferSize p)%nat = true).
  { apply Nat.ltb_lt. rewrite <- Hfull, Hout. simpl. lia. }
  rewrite Hroom. eexists. split; [reflexivity|]. simpl. auto.
Qed.

(** Once the worker stands at the discard with nothing queued, no step of
    any goroutine moves it: the queue stays empty, the worker stays where it
    is, the consumer receives nothing more, and the [Push] calls in
    progress stay in progress. *)
Lemma step_stuck a p p' e :
  forwarder p = AtDiscard e -> outCh p = [] -> step a p = Some p' ->
  forwarder p' = AtDiscard e /\ outCh p' = [] /\ received p' = received p
  /\ exists later, senders p' = senders p ++ later.
Proof.
  intros Hfw Hout.
  destruct a as [e'|i| | | |]; simpl.
  - unfold Push. destruct (closing p); [discriminate|].
    destruct (closed p); intros [= <-]; simpl; repeat split; auto.
    + exists []. now rewrite app_nil_r.
    + eauto.
  - unfold Handoff. rewrite Hfw. discriminate.
  - unfold Forward. rewrite Hfw, Hout. discriminate.
  - unfold Receive. destruct (receiving p); [discriminate|].
    rewrite Hout, Hfw. intros [= <-]; simpl; repeat split; auto.
    exists []. now rewrite app_nil_r.
  - unfold Close. destruct (closing p); [discriminate|].
    destruct (senders p) eqn:Hs; [|discriminate].
    destruct (closed p); intros [= <-]; simpl; repeat split; auto;
      exists []; now rewrite Hs.
  - unfold CloseReturn. rewrite Hfw. destruct (closing p); discriminate.
Qed.

Lemma run_stuck schedule :
  forall p p' e,
    forwarder p = AtDiscard e -> outCh p = [] -> run schedule p = Some p' ->
    forwarder p' = AtDiscard e /\ outCh p' = [] /\ received p' = received p
    /\ exists later, senders p' = senders p ++ later.
Proof.
  induction schedule as [|a rest IH]; intros p p' e Hfw Hout; simpl.
  - intros [= <-]. repeat split; auto. exists []. now rewrite app_nil_r.
  - destruct (step a p) as [p1|] eqn:Hstep; [|discriminate]. intros Hrun.
    destruct (step_stuck _ _ _ _ Hfw Hout Hstep)
      as (Hfw1 & Hout1 & Hrecv1 & l1 & Hs1).
    destruct (IH _ _ _ Hfw1 Hout1 Hrun) as (Hfw' & Hout' & Hrecv' & l2 & Hs2).
    repeat split; auto; [congruence|].
    exists (l1 ++ l2). now rewrite Hs2, Hs1, app_assoc.
Qed.

(** The consumer can empty the queue by receiving as often as there are
    items. *)
Lemma Receive_all :
  forall queued p,
    outCh p = queued -> receiving p = false ->
    run (repeat DoReceive (length queued)) p
    = Some (set_received (received p ++ queued) (set_outCh [] p)).
Proof.
  induction queued as [|e rest IH]; intros p Hout Hrecv; simpl.
  - destruct p; simpl in *; subst. now rewrite app_nil_r.
  - unfold Receive at 1. rewrite Hrecv, Hout.
    rewrite (IH (set_received (received p ++ [e]) (set_outCh rest p))
               eq_refl Hrecv).
    simpl. now rewrite <- app_assoc.
Qed.

(** Whatever the capacity: the worker that finds the buffer full, and the
    consumer that then empties it, leave the worker blocked at the
    discard.  On an unbuffered pipe the consumer need not even move. *)
Lemma full_then_drained_blocks p e :
  forwarder p = AtSelect e -> receiving p = false ->
  length (outCh p) = bufferSize p ->
  exists p',
    run (DoForward :: repeat DoReceive (length (outCh p))) p = Some p'
    /\ forwarder p' = AtDiscard e /\ outCh p' = [] /\ Forward p' = None.
Proof.
  intros Hfw Hrecv Hfull. simpl.
  assert (Hdefault : Forward p = Some (set_forwarder (AtDiscard e) p)).
  { unfold Forward. rewrite Hfw. unfold trySend.
    now rewrite Hrecv, Hfull, Nat.ltb_irrefl. }
  rewrite Hdefault.
  rewrite (Receive_all (outCh p) (set_forwarder (AtDiscard e) p) eq_refl Hrecv).
  eexists. split; [reflexivity|]. repeat split.
Qed.

(** In that state no blocked [Push] is ever taken by the worker. *)
Lemma Handoff_stuck i p e :
  forwarder p = AtDiscard e -> Handoff i p = None.
Proof. intros Hfw. unfold Handoff. now rewrite Hfw. Qed.

End PipeProperties.

(** C5, on the code.  A pipe of capacity 1: [U1] is pushed and queued;
    [U2] is pushed, the worker finds the buffer full and takes the default
    branch; the consumer receives [U1] before the worker runs its discard;
    [U3] is pushed.  From then on, whatever any goroutine does, the worker
    stays at the discard [<-outCh] of an empty channel: [U2] is never
    queued, the consumer receives nothing after [U1], and the [Push] of
    [U3] never returns. *)
Theorem discard_blocks_after_drain :
  exists p0 p : pipe.state nat,
    pipe.BufferedPipe nat 1 = Some p0
    /\ pipe.run
         [pipe.DoPush (Some 1%nat); pipe.DoHandoff 0;
          pipe.DoForward; pipe.DoForward;
          pipe.DoPush (Some 2%nat); pipe.DoHandoff 0;
          pipe.DoForward; pipe.DoForward;
          pipe.DoReceive;
          pipe.DoPush (Some 3%nat)] p0 = Some p
    /\ pipe.forwarder p = pipe.AtDiscard (Some 2%nat)
    /\ pipe.senders p = [Some 3%nat]
    /\ forall schedule,
         match pipe.run schedule p with
         | Some p' =>
             pipe.forwarder p' = pipe.AtDiscard (Some 2%nat)
             /\ pipe.outCh p' = []
             /\ pipe.received p' = [Some 1%nat]
             /\ In (Some 3%nat) (pipe.senders p')
             /\ forall i, pipe.Handoff i p' = None
         | None => True
         end.
Proof.
  do 2 eexists. split; [reflexivity|]. split; [vm_compute; reflexivity|].
  split; [reflexivity|]. split; [reflexivity|]. intros schedule.
  match goal with |- context [pipe.run schedule ?q] => set (p := q) end.
  destruct (pipe.run schedule p) as [p'|] eqn:Hrun; [|exact I].
  destruct (run_stuck schedule p p' (Some 2%nat) eq_refl eq_refl Hrun)
    as (Hfw & Hout & Hrecv & later & Hsenders).
  repeat split; try assumption.
  - rewrite Hsenders. simpl. now left.
  - intros i. now apply (Handoff_stuck i p' (Some 2%nat)).
Qed.

(** The same on an unbuffered pipe, without any help from the consumer: the
    first update finds no receiver waiting, and the worker blocks in the
    discard for good. *)
Example discard_blocks_unbuffered :
  exists p0 p : pipe.state nat,
    pipe.BufferedPipe nat 0 = Some p0
    /\ pipe.run [pipe.DoPush (Some 1%nat); pipe.DoHandoff 0;
                 pipe.DoForward; pipe.DoForward] p0 = Some p
    /\ pipe.forwarder p = pipe.AtDiscard (Some 1%nat)
    /\ pipe.outCh p = []
    /\ pipe.Forward p = None.
Proof.
  do 2 eexists. split; [reflexivity|]. split; [vm_compute; reflexivity|].
  repeat split.
Qed.

(** C7 (as amended).  [Push] does not look at its argument: on an open pipe
    a nil event is offered to the intake like any other, and the call stays
    blocked on it until the worker takes it.  It is the worker that drops a
    nil event, going back to its receive without touching the output; so in
    every state the pipe can reach, no nil is queued on the output and none
    was received by the consumer. *)
Theorem nil_dropped_by_worker {SVIDUpdate : Type} (size : Z)
    (p0 p : pipe.state SVIDUpdate) (schedule : list (pipe.action SVIDUpdate)) :
  pipe.BufferedPipe SVIDUpdate size = Some p0 ->
  pipe.run schedule p0 = Some p ->
  (pipe.closed p = false -> pipe.closing p = false ->
   pipe.Push None p = Some (pipe.set_senders (pipe.senders p ++ [None]) p))
  /\ (pipe.forwarder p = pipe.AtNilCheck None ->
      pipe.Forward p = Some (pipe.set_forwarder pipe.AtRange p))
  /\ ~ In None (pipe.outCh p)
  /\ ~ In None (pipe.received p).
Proof.
  intros Hnew Hrun.
  destruct (BufferedPipe_invariant size p0 Hnew) as [Hinv0 _].
  pose proof (run_invariant schedule p0 p Hinv0 Hrun) as Hinv.
  repeat split.
  - intros Hclosed Hclosing. unfold pipe.Push. now rewrite Hclosing, Hclosed.
  - intros Hfw. unfold pipe.Forward. now rewrite Hfw.
  - apply (statement.queued_not_nil p Hinv).
  - apply (statement.received_not_nil p Hinv).
Qed.

(** C7, at a concrete input: a pipe of capacity 1 after [Push(nil)], then
    [Push(U1)] and the three steps that bring [U1] to the consumer's
    queue. *)
Lemma nil_dropped_by_worker_witness :
  exists p0 p : pipe.state nat,
    pipe.BufferedPipe nat 1 = Some p0
    /\ pipe.run [pipe.DoPush None; pipe.DoHandoff 0; pipe.DoForward;
                 pipe.DoPush (Some 1%nat); pipe.DoHandoff 0;
                 pipe.DoForward; pipe.DoForward] p0 = Some p
    /\ pipe.outCh p = [Some 1%nat]
    /\ ~ In None (pipe.outCh p)
    /\ ~ In None (pipe.received p).
Proof.
  do 2 eexists. split; [reflexivity|]. split; [vm_compute; reflexivity|].
  split; [reflexivity|].
  eapply (nil_dropped_by_worker 1 _ _
            [pipe.DoPush None; pipe.DoHandoff 0; pipe.DoForward;
             pipe.DoPush (Some 1%nat); pipe.DoHandoff 0;
             pipe.DoForward; pipe.DoForward]).
  - reflexivity.
  - vm_compute. reflexivity.
Defined.

(** C7, counterexample.  On a fresh pipe [Push(nil)] is not a no-op: the
    call is left blocked on the intake, from where the worker takes the nil;
    and while the worker is busy with another update the nil is not taken,
    so the call does not return. *)
Lemma Push_nil_reaches_intake :
  exists p0 : pipe.state nat,
    pipe.BufferedPipe nat 1 = Some p0
    /\ ~ statement.Push_nil_is_noop p0
    /\ pipe.Push None p0 = Some (pipe.set_senders [None] p0)
    /\ pipe.run [pipe.DoPush None; pipe.DoHandoff 0] p0
       = Some (pipe.set_forwarder (pipe.AtNilCheck None) p0)
    /\ pipe.run [pipe.DoPush (Some 1%nat); pipe.DoHandoff 0;
                 pipe.DoPush None; pipe.DoHandoff 0] p0 = None.
Proof.
  eexists. split; [reflexivity|]. repeat split.
  unfold statement.Push_nil_is_noop. vm_compute. discriminate.
Qed.

(** ** Storable selectors *)

(** C8 (as amended).  [IsStorable] is true exactly when some selector has,
    letter for letter, the lower-cased store type as its type. *)
Theorem IsStorable_iff_lowercase_type (svidstoreType : string)
    (selectors : list common.Selector) :
  pipe.IsStorable svidstoreType selectors = true
  <-> exists s, In s selectors
                /\ common.Type_ s = strings.ToLower svidstoreType.
Proof.
  induction selectors as [|s rest IH]; simpl.
  - split; [discriminate | intros (s & [] & _)].
  - destruct (String.eqb (common.Type_ s) (strings.ToLower svidstoreType))
      eqn:Heq.
    + apply String.eqb_eq in Heq. split; [eauto | reflexivity].
    + apply String.eqb_neq in Heq. rewrite IH. split.
      * intros (s' & Hin & Htype). eauto.
      * intros (s' & [<- | Hin] & Htype); [contradiction | eauto].
Qed.

(** C8, counterexample.  A selector whose type is the store type itself,
    capitals included, is not storable; nor is one that differs from an
    all-lower-case store type in letter case only. *)
Lemma IsStorable_is_case_sensitive :
  ~ statement.IsStorable_ignores_case "SVIDStore"
      [ {| common.Type_ := "SVIDStore"; common.Value := "secret" |} ]
  /\ ~ statement.IsStorable_ignores_case "svidstore"
         [ {| common.Type_ := "SVIDStore"; common.Value := "secret" |} ].
Proof.
  split; intros [_ Hmatch];
    (assert (Hfalse : false = true);
     [apply Hmatch; eexists; split; [now left | reflexivity]
     | discriminate Hfalse]).
Qed.

(** ** The accessor of the rotator *)

(** C9.  The accessor is a total function of the two snapshots: it returns
    the certificate chain and the key of the current state together with
    the root CAs of the bundle of the configured trust domain, and the
    empty set of root CAs when the bundle map has no bundle for it. *)
Theorem KeysAndBundle_never_fails
    {Certificate PrivateKey Bundle URL : Type}
    (RootCAs : Bundle -> list Certificate) (URL_String : URL -> string)
    (state : svid.Property (svid.State Certificate PrivateKey))
    (c : svid.RotatorConfig Bundle URL) :
  exists rootCAs,
    svid.KeysAndBundle RootCAs URL_String state c
    = (svid.SVID (svid.Value state), svid.Key (svid.Value state),
       rootCAs)
    /\ (svid.Value (svid.BundleStream c)
          !! URL_String (svid.TrustDomain c) = None ->
        rootCAs = [])
    /\ (forall bundle,
          svid.Value (svid.BundleStream c)
            !! URL_String (svid.TrustDomain c) = Some (Some bundle) ->
          rootCAs = RootCAs bundle).
Proof.
  unfold svid.KeysAndBundle.
  destruct (svid.Value (svid.BundleStream c)
              !! URL_String (svid.TrustDomain c)) as [[bundle|]|] eqn:Hlookup;
    eexists; (split; [reflexivity|]); split; congruence.
Qed.

(** C9, at a concrete input: certificates and keys are numbers, a bundle is
    its list of root CAs; the map holds a bundle for [spiffe://other.org]
    only, the agent is configured for [spiffe://example.org]. *)
Lemma KeysAndBundle_never_fails_witness :
  svid.KeysAndBundle (fun roots : list nat => roots)
    (fun url : string => url)
    (svid.NewProperty {| svid.SVID := [1%nat; 2%nat]; svid.Key := 7%nat |})
    {| svid.TrustDomain := "spiffe://example.org";
       svid.BundleStream :=
         svid.NewProperty {[ "spiffe://other.org" := Some [5%nat] ]} |}
  = ([1%nat; 2%nat], 7%nat, []).
Proof.
  destruct (KeysAndBundle_never_fails (fun roots : list nat => roots)
              (fun url : string => url)
              (svid.NewProperty {| svid.SVID := [1%nat; 2%nat];
                                   svid.Key := 7%nat |})
              {| svid.TrustDomain := "spiffe://example.org";
                 svid.BundleStream :=
                   svid.NewProperty {[ "spiffe://other.org" := Some [5%nat] ]} |})
    as (rootCAs & Hrun & Habsent & _).
  rewrite Hrun, Habsent; [reflexivity|].
  simpl. apply lookup_singleton_ne. discriminate.
Defined.

(* ===================================================================== *)
(** * Part III: further properties of the code                            *)
(* ===================================================================== *)

(** ** Listing: what a response holds *)

Section ListingViews.

Import statement datastore.
Context `{spiffeid.Parser} `{Fmt} {St : Type} `{DataStore St}.

(** The bundles the loop adds are the views of the records that are not the
    server's own, in the order of the records. *)
Lemma listLoop_Ok_views s mask dsBundles :
  forall bundles listed,
    bundle.listLoop s mask dsBundles bundles = Ok listed ->
    exists views,
      listed = bundles ++ views
      /\ Forall2 (fun b out => view b (effective mask) out)
           (List.filter (fun b => negb (isOwn s b)) dsBundles) views.
Proof.
  induction dsBundles as [|dsBundle rest IH]; intros bundles listed.
  - simpl. intros [= <-]. exists []. split; [now rewrite app_nil_r|constructor].
  - rewrite listLoop_cons. simpl List.filter. unfold isOwn at 1.
    destruct (spiffeid.TrustDomainFromString (common.TrustDomainId dsBundle))
      as [td'|e] eqn:Hparse; [|discriminate].
    destruct (spiffeid.Compare (bundle.td s) td' =? 0)%Z; simpl.
    + apply IH.
    + destruct (bundle.applyMask dsBundle mask) as [b|err] eqn:Happly;
        [|discriminate].
      intros Hloop. destruct (IH _ _ Hloop) as (views & -> & Hviews).
      exists (b :: views). split; [now rewrite <- app_assoc|].
      constructor; [now apply applyMask_Ok | assumption].
Qed.

(** The loop fails with [Internal] only. *)
Lemma listLoop_Err_Internal s mask dsBundles :
  forall bundles err,
    bundle.listLoop s mask dsBundles bundles = Err err ->
    exists msg, err = StatusError codes.Internal msg.
Proof.
  induction dsBundles as [|dsBundle rest IH]; intros bundles err.
  - discriminate.
  - rewrite listLoop_cons.
    destruct (spiffeid.TrustDomainFromString (common.TrustDomainId dsBundle))
      as [td'|e]; [|intros [= <-]; eauto].
    destruct (spiffeid.Compare (bundle.td s) td' =? 0)%Z; [apply IH|].
    destruct (bundle.applyMask dsBundle mask); [apply IH|].
    intros [= <-]. eauto.
Qed.

(** What [ListFederatedBundles] does to the world, whatever it returns. *)
Lemma ListFederatedBundles_world s req (w : World St) :
  snd (bundle.ListFederatedBundles s req w)
  = {| store := snd (ListBundles (bundle.listReq req) (store w));
       calls := calls w ++ [CallListBundles (bundle.listReq req)] |}.
Proof.
  unfold bundle.ListFederatedBundles, mbind, M_bind, bind, request, ret.
  destruct (ListBundles (bundle.listReq req) (store w)) as [[dsResp|err] st'];
    simpl; [|reflexivity].
  now destruct (bundle.listLoop s (bundlepb.lfOutputMask req) (Bundles dsResp) []).
Qed.

End ListingViews.

(** X1.  A successful [ListFederatedBundles] lists, in repository order,
    one view per record returned by the repository except the records of
    the server's own trust domain, which are left out; the next-page token
    is the one of the repository, or empty when it gave none. *)
Theorem ListFederatedBundles_lists_federated_views
    `{spiffeid.Parser} `{Fmt} {St : Type} `{datastore.DataStore St}
    (s : bundle.Service) (req : bundlepb.ListFederatedBundlesRequest)
    (w : datastore.World St) (dsResp : datastore.ListBundlesResponse)
    (st' : St) (resp : bundlepb.ListFederatedBundlesResponse) :
  datastore.ListBundles (bundle.listReq req) (datastore.store w)
  = (Ok dsResp, st') ->
  fst (bundle.ListFederatedBundles s req w) = Ok resp ->
  Forall2
    (fun b out =>
       statement.view b (statement.effective (bundlepb.lfOutputMask req)) out)
    (List.filter (fun b => negb (statement.isOwn s b))
       (datastore.Bundles dsResp))
    (bundlepb.Bundles resp)
  /\ bundlepb.NextPageToken resp
     = match datastore.respPagination dsResp with
       | Some p => datastore.Token p
       | None => ""%string
       end.
Proof.
  intros Hlist. rewrite (ListFederatedBundles_run s req w dsResp st' Hlist).
  simpl.
  destruct (bundle.listLoop s (bundlepb.lfOutputMask req)
              (datastore.Bundles dsResp) []) as [listed|err] eqn:Hloop;
    [|discriminate].
  intros [= <-]. simpl.
  destruct (listLoop_Ok_views s _ _ _ _ Hloop) as (views & -> & Hviews).
  split; [exact Hviews | reflexivity].
Qed.

(** X1, at a concrete input: the repository holds the bundles of
    [td1.org], of the server ([example.org], stored under its SPIFFE ID)
    and of [td2.org]. *)
Lemma ListFederatedBundles_lists_federated_views_witness :
  exists resp,
    fst (bundle.ListFederatedBundles
           (H := fixture.parser) (H0 := fixture.fmt) (H1 := fixture.memory)
           fixture.server
           {| bundlepb.lfPageSize := 0; bundlepb.lfPageToken := "";
              bundlepb.lfOutputMask := None |}
           (fixture.world [fixture.createBundle "td1.org";
                           fixture.createBundle "spiffe://example.org";
                           fixture.createBundle "td2.org"]))
    = Ok resp
    /\ map types.TrustDomain (bundlepb.Bundles resp) = ["td1.org"; "td2.org"]
    /\ Forall2
         (fun b out =>
            statement.view (H := fixture.parser) b bundle.defaultMask out)
         [fixture.createBundle "td1.org"; fixture.createBundle "td2.org"]
         (bundlepb.Bundles resp).
Proof.
  eexists. split; [vm_compute; reflexivity|]. split; [reflexivity|].
  apply (ListFederatedBundles_lists_federated_views
           (H := fixture.parser) (H0 := fixture.fmt) (H1 := fixture.memory)
           fixture.server
           {| bundlepb.lfPageSize := 0; bundlepb.lfPageToken := "";
              bundlepb.lfOutputMask := None |}
           (fixture.world [fixture.createBundle "td1.org";
                           fixture.createBundle "spiffe://example.org";
                           fixture.createBundle "td2.org"])
           {| datastore.Bundles := [fixture.createBundle "td1.org";
                                    fixture.createBundle "spiffe://example.org";
                                    fixture.createBundle "td2.org"];
              datastore.respPagination := None |}
           [fixture.createBundle "td1.org";
            fixture.createBundle "spiffe://example.org";
            fixture.createBundle "td2.org"]).
  - vm_compute. reflexivity.
  - vm_compute. reflexivity.
Defined.

(** X2.  Whatever goes wrong in [ListFederatedBundles] (the repository
    failing, a stored id that does not parse), the error returned carries
    [Internal]. *)
Theorem ListFederatedBundles_errors_are_Internal
    `{spiffeid.Parser} `{Fmt} {St : Type} `{datastore.DataStore St}
    (s : bundle.Service) (req : bundlepb.ListFederatedBundlesRequest)
    (w : datastore.World St) :
  match fst (bundle.ListFederatedBundles s req w) with
  | Ok _ => True
  | Err err => exists msg, err = StatusError codes.Internal msg
  end.
Proof.
  unfold bundle.ListFederatedBundles, mbind, M_bind, datastore.bind,
    datastore.request, datastore.ret.
  destruct (datastore.ListBundles (bundle.listReq req) (datastore.store w))
    as [[dsResp|err] st']; simpl; [|eauto].
  destruct (bundle.listLoop s (bundlepb.lfOutputMask req)
              (datastore.Bundles dsResp) []) as [listed|err] eqn:Hloop;
    simpl; [exact I|].
  now apply (listLoop_Err_Internal s _ _ _ _ Hloop).
Qed.

(** X3.  [ListFederatedBundles] sends the repository exactly one request,
    a listing, whatever it returns afterwards, and leaves the repository as
    that request left it.  The request carries the page size and the page
    token when the page size is positive; otherwise it carries no
    pagination at all, and the page token of the caller is dropped. *)
Theorem ListFederatedBundles_one_request
    `{spiffeid.Parser} `{Fmt} {St : Type} `{datastore.DataStore St}
    (s : bundle.Service) (req : bundlepb.ListFederatedBundlesRequest)
    (w : datastore.World St) :
  exists listReq,
    snd (bundle.ListFederatedBundles s req w)
    = {| datastore.store :=
           snd (datastore.ListBundles listReq (datastore.store w));
         datastore.calls :=
           datastore.calls w ++ [datastore.CallListBundles listReq] |}
    /\ datastore.reqPagination listReq
       = if (0 <? bundlepb.lfPageSize req)%Z
         then Some {| datastore.Token := bundlepb.lfPageToken req;
                      datastore.PageSize := bundlepb.lfPageSize req |}
         else None.
Proof.
  exists (bundle.listReq req). split.
  - apply ListFederatedBundles_world.
  - unfold bundle.listReq. rewrite Z.gtb_ltb.
    now destruct (0 <? bundlepb.lfPageSize req)%Z.
Qed.

(** ** Fetching one bundle *)

Section Fetching.

Import statement datastore.
Context `{spiffeid.Parser} `{Fmt} {St : Type} `{DataStore St}.

(** [GetFederatedBundle] past its two checks: one fetch under the SPIFFE ID
    of the parsed trust domain. *)
Lemma GetFederatedBundle_fetch s req (w : World St) td' :
  spiffeid.TrustDomainFromString (bundlepb.gfTrustDomain req) = Ok td' ->
  spiffeid.Compare (bundle.td s) td' <> 0 ->
  fst (bundle.GetFederatedBundle s req w)
  = match fst (FetchBundle (spiffeid.IDString td') (store w)) with
    | Err err =>
        Err (StatusError codes.Internal
               ("failed to fetch bundle: " +:+ Error err))
    | Ok None =>
        Err (StatusError codes.NotFound
               ("bundle for " +:+ fmt_q (bundlepb.gfTrustDomain req)
                  +:+ " not found"))
    | Ok (Some dsBundle) =>
        match bundle.applyMask dsBundle (bundlepb.gfOutputMask req) with
        | Err err =>
            Err (StatusError codes.Internal
                   ("failed to apply mask: " +:+ Error err))
        | Ok b => Ok b
        end
    end.
Proof.
  intros Hparse Hother. unfold bundle.GetFederatedBundle. rewrite Hparse.
  apply Z.eqb_neq in Hother. rewrite Hother.
  unfold mbind, M_bind, bind, request, ret.
  destruct (FetchBundle (spiffeid.IDString td') (store w))
    as [[[dsBundle|]|err] st']; simpl; try reflexivity.
  now destruct (bundle.applyMask dsBundle (bundlepb.gfOutputMask req)).
Qed.

(** The three ways [GetFederatedBundle] starts. *)
Lemma GetFederatedBundle_cases s req :
  (exists err,
     spiffeid.TrustDomainFromString (bundlepb.gfTrustDomain req) = Err err)
  \/ spiffeid.TrustDomainFromString (bundlepb.gfTrustDomain req)
     = Ok (bundle.td s)
  \/ (exists td',
        spiffeid.TrustDomainFromString (bundlepb.gfTrustDomain req) = Ok td'
        /\ td' <> bundle.td s
        /\ spiffeid.Compare (bundle.td s) td' <> 0).
Proof.
  destruct (spiffeid.TrustDomainFromString (bundlepb.gfTrustDomain req))
    as [td'|err] eqn:Hparse; [|eauto].
  destruct (Z.eq_dec (spiffeid.Compare (bundle.td s) td') 0) as [Hown|Hother].
  - apply Compare_eq_iff in Hown. subst. auto.
  - right. right. exists td'. repeat split; auto.
    intros ->. apply Hother, Compare_refl.
Qed.

Lemma GetFederatedBundle_rejected s req (w : World St) :
  (exists err,
     spiffeid.TrustDomainFromString (bundlepb.gfTrustDomain req) = Err err)
  \/ spiffeid.TrustDomainFromString (bundlepb.gfTrustDomain req)
     = Ok (bundle.td s) ->
  exists msg,
    fst (bundle.GetFederatedBundle s req w)
    = Err (StatusError codes.InvalidArgument msg).
Proof.
  unfold bundle.GetFederatedBundle. intros [[err Herr] | Hown].
  - rewrite Herr. simpl. eauto.
  - rewrite Hown, Compare_refl. simpl. eauto.
Qed.

End Fetching.

(** X4.  When [GetBundle] succeeds, the repository holds a bundle under the
    SPIFFE ID of the server's trust domain and the response is the view of
    that bundle through the requested mask. *)
Theorem GetBundle_Ok_is_view_of_own_bundle
    `{spiffeid.Parser} `{Fmt} {St : Type} `{datastore.DataStore St}
    (s : bundle.Service) (req : bundlepb.GetBundleRequest)
    (w : datastore.World St) (out : types.Bundle) :
  fst (bundle.GetBundle s req w) = Ok out ->
  exists dsBundle,
    fst (datastore.FetchBundle (spiffeid.IDString (bundle.td s))
           (datastore.store w)) = Ok (Some dsBundle)
    /\ statement.view dsBundle
         (statement.effective (bundlepb.gbOutputMask req)) out.
Proof.
  unfold bundle.GetBundle, mbind, M_bind, datastore.bind, datastore.request,
    datastore.ret.
  destruct (datastore.FetchBundle (spiffeid.IDString (bundle.td s))
              (datastore.store w)) as [[[dsBundle|]|err] st'];
    simpl; try discriminate.
  destruct (bundle.applyMask dsBundle (bundlepb.gbOutputMask req))
    as [b|err] eqn:Happly; simpl; [|discriminate].
  intros [= <-]. exists dsBundle. split; [reflexivity|].
  now apply applyMask_Ok.
Qed.

(** X4, at a concrete input: the bundle of [example.org] through a mask
    that asks for the refresh hint only. *)
Lemma GetBundle_Ok_is_view_of_own_bundle_witness :
  exists out,
    fst (bundle.GetBundle
           (H := fixture.parser) (H1 := fixture.memory)
           fixture.server
           {| bundlepb.gbOutputMask :=
                Some {| types.mTrustDomain := false;
                        types.mRefreshHint := true;
                        types.mSequenceNumber := false;
                        types.mX509Authorities := false;
                        types.mJwtAuthorities := false |} |}
           (fixture.world [fixture.createBundle "spiffe://example.org"]))
    = Ok out
    /\ types.RefreshHint out = 60 /\ types.TrustDomain out = ""%string
    /\ exists dsBundle,
         fixture.memory.(datastore.FetchBundle) "spiffe://example.org"
           [fixture.createBundle "spiffe://example.org"]
         = (Ok (Some dsBundle), [fixture.createBundle "spiffe://example.org"])
         /\ common.RefreshHint dsBundle = types.RefreshHint out.
Proof.
  eexists. split; [vm_compute; reflexivity|].
  split; [reflexivity|]. split; [reflexivity|].
  destruct (GetBundle_Ok_is_view_of_own_bundle
              (H := fixture.parser) (H0 := fixture.fmt) (H1 := fixture.memory)
              fixture.server
              {| bundlepb.gbOutputMask :=
                   Some {| types.mTrustDomain := false;
                           types.mRefreshHint := true;
                           types.mSequenceNumber := false;
                           types.mX509Authorities := false;
                           types.mJwtAuthorities := false |} |}
              (fixture.world [fixture.createBundle "spiffe://example.org"])
              _ eq_refl)
    as (dsBundle & Hfetch & _ & Hhint & _).
  exists dsBundle. split.
  - vm_compute in Hfetch. injection Hfetch as <-. reflexivity.
  - simpl in Hhint. now rewrite Hhint.
Defined.

(** X5.  [GetFederatedBundle] answers [InvalidArgument] exactly when its
    trust-domain string does not parse or parses to the server's own trust
    domain; no answer of the repository is ever reported under that code. *)
Theorem GetFederatedBundle_InvalidArgument_iff
    `{spiffeid.Parser} `{Fmt} {St : Type} `{datastore.DataStore St}
    (s : bundle.Service) (req : bundlepb.GetFederatedBundleRequest)
    (w : datastore.World St) :
  (exists msg,
     fst (bundle.GetFederatedBundle s req w)
     = Err (StatusError codes.InvalidArgument msg))
  <-> ((exists err,
          spiffeid.TrustDomainFromString (bundlepb.gfTrustDomain req)
          = Err err)
       \/ spiffeid.TrustDomainFromString (bundlepb.gfTrustDomain req)
          = Ok (bundle.td s)).
Proof.
  split; [|apply GetFederatedBundle_rejected].
  intros [msg Hres].
  destruct (GetFederatedBundle_cases s req)
    as [Herr | [Hown | (td' & Hparse & _ & Hother)]]; auto.
  rewrite (GetFederatedBundle_fetch s req w td' Hparse Hother) in Hres.
  destruct (fst (datastore.FetchBundle (spiffeid.IDString td')
                   (datastore.store w))) as [[dsBundle|]|err];
    try discriminate.
  destruct (bundle.applyMask dsBundle (bundlepb.gfOutputMask req));
    discriminate.
Qed.

(** X6.  [GetFederatedBundle] answers [NotFound] exactly when the string
    parses to a trust domain other than the server's own and the
    repository, asked for the SPIFFE ID of that trust domain, answers
    without error and without a bundle. *)
Theorem GetFederatedBundle_NotFound_iff
    `{spiffeid.Parser} `{Fmt} {St : Type} `{datastore.DataStore St}
    (s : bundle.Service) (req : bundlepb.GetFederatedBundleRequest)
    (w : datastore.World St) :
  (exists msg,
     fst (bundle.GetFederatedBundle s req w)
     = Err (StatusError codes.NotFound msg))
  <-> (exists td',
         spiffeid.TrustDomainFromString (bundlepb.gfTrustDomain req) = Ok td'
         /\ td' <> bundle.td s
         /\ fst (datastore.FetchBundle (spiffeid.IDString td')
                   (datastore.store w)) = Ok None).
Proof.
  split.
  - intros [msg Hres].
    destruct (GetFederatedBundle_cases s req)
      as [Herr | [Hown | (td' & Hparse & Hne & Hother)]].
    + destruct (GetFederatedBundle_rejected s req w (or_introl Herr))
        as [msg' Hrej]. congruence.
    + destruct (GetFederatedBundle_rejected s req w (or_intror Hown))
        as [msg' Hrej]. congruence.
    + exists td'. repeat split; auto.
      rewrite (GetFederatedBundle_fetch s req w td' Hparse Hother) in Hres.
      destruct (fst (datastore.FetchBundle (spiffeid.IDString td')
                       (datastore.store w))) as [[dsBundle|]|err];
        try discriminate; [|reflexivity].
      destruct (bundle.applyMask dsBundle (bundlepb.gfOutputMask req));
        discriminate.
  - intros (td' & Hparse & Hne & Hfetch).
    assert (Hother : spiffeid.Compare (bundle.td s) td' <> 0).
    { intros Hown. apply Compare_eq_iff in Hown. congruence. }
    rewrite (GetFederatedBundle_fetch s req w td' Hparse Hother), Hfetch.
    eauto.
Qed.

(** X7.  When [GetFederatedBundle] succeeds, the string parsed to a trust
    domain other than the server's own, the repository holds a bundle under
    the SPIFFE ID of that trust domain, and the response is the view of
    that bundle through the requested mask. *)
Theorem GetFederatedBundle_Ok_is_view
    `{spiffeid.Parser} `{Fmt} {St : Type} `{datastore.DataStore St}
    (s : bundle.Service) (req : bundlepb.GetFederatedBundleRequest)
    (w : datastore.World St) (out : types.Bundle) :
  fst (bundle.GetFederatedBundle s req w) = Ok out ->
  exists td' dsBundle,
    spiffeid.TrustDomainFromString (bundlepb.gfTrustDomain req) = Ok td'
    /\ td' <> bundle.td s
    /\ fst (datastore.FetchBundle (spiffeid.IDString td')
              (datastore.store w)) = Ok (Some dsBundle)
    /\ statement.view dsBundle
         (statement.effective (bundlepb.gfOutputMask req)) out.
Proof.
  intros Hres.
  destruct (GetFederatedBundle_cases s req)
    as [Herr | [Hown | (td' & Hparse & Hne & Hother)]].
  - destruct (GetFederatedBundle_rejected s req w (or_introl Herr))
      as [msg Hrej]. congruence.
  - destruct (GetFederatedBundle_rejected s req w (or_intror Hown))
      as [msg Hrej]. congruence.
  - rewrite (GetFederatedBundle_fetch s req w td' Hparse Hother) in Hres.
    destruct (fst (datastore.FetchBundle (spiffeid.IDString td')
                     (datastore.store w))) as [[dsBundle|]|err] eqn:Hfetch;
      try discriminate.
    destruct (bundle.applyMask dsBundle (bundlepb.gfOutputMask req))
      as [b|err] eqn:Happly; [|discriminate].
    injection Hres as <-. exists td', dsBundle. repeat split; auto.
    all: now apply applyMask_Ok in Happly as (? & ? & ? & ? & ?).
Qed.

(** X7, at a concrete input: [TD1.org] is asked of the server
    [example.org]; the repository holds the bundle under
    [spiffe://td1.org]. *)
Lemma GetFederatedBundle_Ok_is_view_witness :
  exists out,
    fst (bundle.GetFederatedBundle
           (H := fixture.parser) (H0 := fixture.fmt) (H1 := fixture.memory)
           fixture.server
           {| bundlepb.gfTrustDomain := "TD1.org";
              bundlepb.gfOutputMask := None |}
           (fixture.world [fixture.createBundle "spiffe://td1.org"]))
    = Ok out
    /\ types.TrustDomain out = "td1.org"%string
    /\ exists td' dsBundle,
         fixture.parser "TD1.org" = Ok td'
         /\ statement.view (H := fixture.parser) dsBundle
              bundle.defaultMask out.
Proof.
  eexists. split; [vm_compute; reflexivity|]. split; [reflexivity|].
  destruct (GetFederatedBundle_Ok_is_view
              (H := fixture.parser) (H0 := fixture.fmt) (H1 := fixture.memory)
              fixture.server
              {| bundlepb.gfTrustDomain := "TD1.org";
                 bundlepb.gfOutputMask := None |}
              (fixture.world [fixture.createBundle "spiffe://td1.org"])
              _ eq_refl)
    as (td' & dsBundle & Hparse & _ & _ & Hview).
  exists td', dsBundle. split; [exact Hparse | exact Hview].
Defined.

(** ** Batch delete: what reaches the repository *)

Section BatchRequests.

Import statement datastore.
Context `{spiffeid.Parser} `{Fmt} {St : Type} `{DataStore St}.

(** The requests of one item. *)
Lemma deleteFederatedBundle_calls s trustDomain (w : World St) :
  calls (snd (bundle.deleteFederatedBundle s trustDomain w))
  = calls w ++ map deleteCall (deleteTargets s [trustDomain]).
Proof.
  simpl.
  destruct (spiffeid.TrustDomainFromString trustDomain) as [td'|e] eqn:Hparse.
  - destruct (Z.eq_dec (spiffeid.Compare (bundle.td s) td') 0) as [Hown|Hother].
    + rewrite (delete_own _ _ _ _ Hparse Hown), Hown. simpl.
      now rewrite app_nil_r.
    + destruct (DeleteBundle (spiffeid.String td') RESTRICT (store w))
        as [err st'] eqn:Hdel.
      rewrite (delete_federated _ _ _ _ _ _ Hparse Hother Hdel).
      apply Z.eqb_neq in Hother. now rewrite Hother.
  - rewrite (delete_malformed _ _ _ _ Hparse). simpl. now rewrite app_nil_r.
Qed.

Lemma deleteTargets_cons s trustDomain rest :
  deleteTargets s (trustDomain :: rest)
  = deleteTargets s [trustDomain] ++ deleteTargets s rest.
Proof.
  simpl. destruct (spiffeid.TrustDomainFromString trustDomain) as [td'|e];
    [|reflexivity].
  now destruct (spiffeid.Compare (bundle.td s) td' =? 0)%Z.
Qed.

Lemma deleteLoop_calls s trustDomains :
  forall results (w : World St),
    calls (snd (bundle.deleteLoop s trustDomains results w))
    = calls w ++ map deleteCall (deleteTargets s trustDomains).
Proof.
  induction trustDomains as [|trustDomain rest IH]; intros results w.
  - simpl. now rewrite app_nil_r.
  - rewrite deleteLoop_cons, deleteTargets_cons, map_app, app_assoc.
    rewrite <- deleteFederatedBundle_calls.
    destruct (bundle.deleteFederatedBundle s trustDomain w) as [err w1].
    apply IH.
Qed.

(** The loop only ever appends to the results it is given. *)
Lemma deleteLoop_from_nil s trustDomains :
  forall results (w : World St),
    bundle.deleteLoop s trustDomains results w
    = let (added, w') := bundle.deleteLoop s trustDomains [] w in
      (results ++ added, w').
Proof.
  induction trustDomains as [|trustDomain rest IH]; intros results w.
  - simpl. unfold ret. now rewrite app_nil_r.
  - rewrite !deleteLoop_cons.
    destruct (bundle.deleteFederatedBundle s trustDomain w) as [err w1].
    rewrite IH. rewrite (IH ([] ++ _)).
    destruct (bundle.deleteLoop s rest [] w1) as [added w'].
    now rewrite <- app_assoc.
Qed.

Lemma deleteLoop_app s l1 l2 :
  forall results (w : World St),
    bundle.deleteLoop s (l1 ++ l2) results w
    = let (results1, w1) := bundle.deleteLoop s l1 results w in
      bundle.deleteLoop s l2 results1 w1.
Proof.
  induction l1 as [|trustDomain rest IH]; intros results w.
  - reflexivity.
  - simpl app. rewrite !deleteLoop_cons.
    destruct (bundle.deleteFederatedBundle s trustDomain w) as [err w1].
    apply IH.
Qed.

End BatchRequests.

(** X8.  The requests [BatchDeleteFederatedBundle] sends to the repository
    are exactly one delete in restrict mode, under the bare trust-domain
    name, for each input string that parses to a trust domain other than
    the server's own, in input order; malformed strings and the server's
    own trust domain never reach the repository, and nothing is fetched or
    listed. *)
Theorem BatchDelete_requests
    `{spiffeid.Parser} `{Fmt} {St : Type} `{datastore.DataStore St}
    (s : bundle.Service) (req : bundlepb.BatchDeleteFederatedBundleRequest)
    (w : datastore.World St) :
  datastore.calls (snd (bundle.BatchDeleteFederatedBundle s req w))
  = datastore.calls w
    ++ map (fun td' =>
              datastore.CallDeleteBundle (spiffeid.String td')
                datastore.RESTRICT)
         (statement.deleteTargets s (bundlepb.TrustDomains req)).
Proof.
  destruct (bundlepb.TrustDomains req) as [|trustDomain rest] eqn:Hreq.
  - unfold bundle.BatchDeleteFederatedBundle. rewrite Hreq. simpl.
    now rewrite app_nil_r.
  - rewrite BatchDelete_nonempty by congruence. rewrite Hreq.
    pose proof (deleteLoop_calls s (trustDomain :: rest) [] w) as Hcalls.
    destruct (bundle.deleteLoop s (trustDomain :: rest) [] w) as [results w'].
    exact Hcalls.
Qed.

(** X9.  One item of a batch gets the nil status exactly when its string
    parses to a trust domain other than the server's own and the
    repository deletes the bundle of that trust domain without error. *)
Theorem deleteFederatedBundle_nil_iff_deleted
    `{spiffeid.Parser} `{Fmt} {St : Type} `{datastore.DataStore St}
    (s : bundle.Service) (trustDomain : string) (w : datastore.World St) :
  api.StatusFromError (fst (bundle.deleteFederatedBundle s trustDomain w))
  = None
  <-> (exists td',
         spiffeid.TrustDomainFromString trustDomain = Ok td'
         /\ td' <> bundle.td s
         /\ fst (datastore.DeleteBundle (spiffeid.String td')
                   datastore.RESTRICT (datastore.store w)) = None).
Proof.
  destruct (spiffeid.TrustDomainFromString trustDomain) as [td'|e] eqn:Hparse.
  - destruct (Z.eq_dec (spiffeid.Compare (bundle.td s) td') 0) as [Hown|Hother].
    + rewrite (delete_own _ _ _ _ Hparse Hown). simpl.
      apply Compare_eq_iff in Hown. split; [discriminate|].
      intros (td'' & [= <-] & Hne & _). congruence.
    + destruct (datastore.DeleteBundle (spiffeid.String td') datastore.RESTRICT
                  (datastore.store w)) as [err st'] eqn:Hdel.
      rewrite (delete_federated _ _ _ _ _ _ Hparse Hother Hdel). simpl. split.
      * destruct err; [discriminate|]. intros _. exists td'.
        repeat split; [|now rewrite Hdel].
        intros ->. apply Hother, Compare_refl.
      * intros (td'' & [= <-] & _ & Hnil). rewrite Hdel in Hnil.
        simpl in Hnil. now rewrite Hnil.
  - rewrite (delete_malformed _ _ _ _ Hparse). simpl. split; [discriminate|].
    intros (td'' & [=] & _).
Qed.

(** X10.  A batch is processed item by item, in sequence: the response to
    a batch made of two non-empty batches is the results of the first
    followed by the results of the second, run on the repository as the
    first left it. *)
Theorem BatchDelete_app
    `{spiffeid.Parser} `{Fmt} {St : Type} `{datastore.DataStore St}
    (s : bundle.Service) (l1 l2 : list string) (w : datastore.World St) :
  l1 <> [] -> l2 <> [] ->
  exists results1 w1 results2 w2,
    bundle.BatchDeleteFederatedBundle s {| bundlepb.TrustDomains := l1 |} w
    = (Ok {| bundlepb.Results := results1 |}, w1)
    /\ bundle.BatchDeleteFederatedBundle s {| bundlepb.TrustDomains := l2 |} w1
       = (Ok {| bundlepb.Results := results2 |}, w2)
    /\ bundle.BatchDeleteFederatedBundle s
         {| bundlepb.TrustDomains := l1 ++ l2 |} w
       = (Ok {| bundlepb.Results := results1 ++ results2 |}, w2).
Proof.
  intros Hl1 Hl2.
  rewrite !BatchDelete_nonempty; simpl bundlepb.TrustDomains; auto.
  2: { intros Happ. apply app_eq_nil in Happ as [? _]. contradiction. }
  rewrite deleteLoop_app.
  destruct (bundle.deleteLoop s l1 [] w) as [results1 w1] eqn:Hloop1.
  exists results1, w1.
  rewrite (deleteLoop_from_nil s l2 results1 w1).
  rewrite BatchDelete_nonempty by auto. simpl bundlepb.TrustDomains.
  destruct (bundle.deleteLoop s l2 [] w1) as [results2 w2].
  exists results2, w2. repeat split.
Qed.

(** X10, at a concrete input: the batch [td1.org] followed by the batch
    [td1.org], [example.org]; the second delete of [td1.org] runs on the
    repository the first one has emptied. *)
Lemma BatchDelete_app_witness :
  exists results w',
    bundle.BatchDeleteFederatedBundle
      (H := fixture.parser) (H0 := fixture.fmt) (H1 := fixture.memory)
      fixture.server
      {| bundlepb.TrustDomains := ["td1.org"] ++ ["td1.org"; "example.org"] |}
      (fixture.world [fixture.createBundle "td1.org"])
    = (Ok {| bundlepb.Results := results |}, w')
    /\ map (fun r => statement.GetCode (bundlepb.Status r)) results
       = [0; 13; 3].
Proof.
  destruct (BatchDelete_app
              (H := fixture.parser) (H0 := fixture.fmt) (H1 := fixture.memory)
              fixture.server ["td1.org"] ["td1.org"; "example.org"]
              (fixture.world [fixture.createBundle "td1.org"]))
    as (results1 & w1 & results2 & w2 & Hfirst & Hsecond & Hboth).
  - discriminate.
  - discriminate.
  - exists (results1 ++ results2), w2. split; [exact Hboth|].
    vm_compute in Hfirst. injection Hfirst as <- <-.
    vm_compute in Hsecond. injection Hsecond as <- <-.
    reflexivity.
Defined.

(** ** The pipe: what it holds, what it delivers *)

Section PipeContents.

Import statement pipe.
Context {SVIDUpdate : Type}.
Implicit Types (p : state SVIDUpdate) (e : event SVIDUpdate).

Lemma keep_last_all {A} (n : nat) (l : list A) :
  (length l <= n)%nat -> keep_last n l = l.
Proof.
  intros Hle. unfold keep_last.
  replace (length l - n)%nat with 0%nat by lia. reflexivity.
Qed.

Lemma keep_last_length {A} (n : nat) (l : list A) :
  (length (keep_last n l) <= n)%nat.
Proof. unfold keep_last. rewrite List.length_skipn. lia. Qed.

(** Keeping the last [n] items can be done as the items come. *)
Lemma keep_last_app {A} (n : nat) (l r : list A) :
  keep_last n (keep_last n l ++ r) = keep_last n (l ++ r).
Proof.
  destruct (Nat.le_gt_cases (length l) n) as [Hle|Hgt].
  - now rewrite (keep_last_all n l Hle).
  - unfold keep_last.
    rewrite !length_app, List.length_skipn, !List.skipn_app,
      List.skipn_skipn, List.length_skipn.
    f_equal; f_equal; lia.
Qed.

(** Membership in lists put together with [++] and [::]. *)
Ltac in_lists :=
  repeat (progress (rewrite ?in_app_iff; simpl)); intuition (subst; auto).

(** A step brings nothing into the pipe but the event of a [Push]. *)
Lemma step_contents a p p' e :
  step a p = Some p' -> In e (contents p') ->
  In e (contents p) \/ a = DoPush e.
Proof.
  destruct p as [n q rw rd sd cl cg fw]. unfold contents.
  destruct a as [e'|i| | | |]; simpl.
  - unfold Push; simpl. destruct cg; [discriminate|].
    destruct cl; intros [= <-]; simpl; [auto|]. in_lists.
  - unfold Handoff; simpl. destruct fw; try discriminate.
    destruct (sd !! i) as [e0|] eqn:Hi; [|discriminate].
    intros [= <-]; simpl. rewrite !in_app_iff. simpl.
    intros [Hin | [Hin | [<- | Hin]]]; auto.
    + left. right. right. apply list_elem_of_In.
      eapply list_elem_of_lookup_2; eauto.
    + left. right. right. apply list_elem_of_In.
      eapply list_elem_of_delete_inv. apply list_elem_of_In. eauto.
  - unfold Forward, trySend; simpl.
    destruct fw as [|[u|]|e0|e0|e0|]; simpl.
    + destruct cl; [|discriminate]. intros [= <-]; simpl. auto.
    + intros [= <-]; simpl. auto.
    + intros [= <-]; simpl. in_lists.
    + destruct rw; [|destruct (length q <? n)%nat];
        intros [= <-]; simpl; in_lists.
    + destruct q as [|oldest rest]; [discriminate|].
      intros [= <-]; simpl. in_lists.
    + destruct rw; [|destruct (length q <? n)%nat]; try discriminate;
        intros [= <-]; simpl; in_lists.
    + discriminate.
  - unfold Receive; simpl. destruct rw; [discriminate|].
    destruct q as [|e0 rest].
    + destruct fw; intros [= <-]; simpl; auto.
    + intros [= <-]; simpl. in_lists.
  - unfold Close; simpl. destruct cg; [discriminate|].
    destruct sd; [|discriminate]. destruct cl; intros [= <-]; simpl; auto.
  - unfold CloseReturn; simpl. destruct cg; [|discriminate].
    destruct fw; try discriminate. intros [= <-]; simpl; auto.
Qed.

Lemma run_contents schedule :
  forall p p' e,
    run schedule p = Some p' -> In e (contents p') ->
    In e (contents p) \/ In e (pushed schedule).
Proof.
  induction schedule as [|a rest IH]; intros p p' e; simpl.
  - intros [= <-]. auto.
  - destruct (step a p) as [p1|] eqn:Hstep; [|discriminate].
    intros Hrun Hin. destruct (IH _ _ _ Hrun Hin) as [Hp1 | Hrest].
    + destruct (step_contents _ _ _ _ Hstep Hp1) as [Hp | ->]; auto.
      right. simpl. auto.
    + right. destruct a; simpl; auto.
Qed.

(** How closing goes, along every schedule. *)
Lemma BufferedPipe_close_invariant size p :
  BufferedPipe SVIDUpdate size = Some p -> close_invariant p.
Proof.
  unfold BufferedPipe. destruct (size <? 0)%Z; [discriminate|].
  intros [= <-]. constructor; simpl; discriminate.
Qed.

Lemma step_close_invariant a p p' :
  close_invariant p -> step a p = Some p' -> close_invariant p'.
Proof.
  intros [Hcg Hex Hrw]. destruct p as [n q rw rd sd cl cg fw]. simpl in *.
  destruct a as [e'|i| | | |]; simpl.
  - unfold Push; simpl. destruct cg; [discriminate|].
    destruct cl; intros [= <-]; constructor; simpl; auto.
  - unfold Handoff; simpl. destruct fw; try discriminate.
    destruct (sd !! i); [|discriminate].
    intros [= <-]; constructor; simpl; auto; discriminate.
  - unfold Forward, trySend; simpl.
    destruct fw as [|[u|]|e0|e0|e0|]; simpl.
    + destruct cl; [|discriminate]. intros [= <-]; constructor; simpl; auto.
    + intros [= <-]; constructor; simpl; auto; discriminate.
    + intros [= <-]; constructor; simpl; auto; discriminate.
    + destruct rw; [|destruct (length q <? n)%nat];
        intros [= <-]; constructor; simpl; auto; discriminate.
    + destruct q; [discriminate|].
      intros [= <-]; constructor; simpl; auto; discriminate.
    + destruct rw; [|destruct (length q <? n)%nat]; try discriminate;
        intros [= <-]; constructor; simpl; auto; discriminate.
    + discriminate.
  - unfold Receive; simpl. destruct rw; [discriminate|].
    destruct q.
    + destruct fw; intros [= <-]; constructor; simpl; auto; discriminate.
    + intros [= <-]; constructor; simpl; auto.
  - unfold Close; simpl. destruct cg; [discriminate|].
    destruct sd; [|discriminate].
    destruct cl; intros [= <-]; constructor; simpl; auto.
  - unfold CloseReturn; simpl. destruct cg; [|discriminate].
    destruct fw; try discriminate.
    intros [= <-]; constructor; simpl; auto.
Qed.

Lemma run_close_invariant schedule :
  forall p p',
    close_invariant p -> run schedule p = Some p' -> close_invariant p'.
Proof.
  induction schedule as [|a rest IH]; intros p p' Hinv; simpl.
  - now intros [= <-].
  - destruct (step a p) as [p1|] eqn:Hstep; [|discriminate].
    apply IH. eapply step_close_invariant; eauto.
Qed.

End PipeContents.

Section PipeAtRest.

Import statement pipe.
Context {SVIDUpdate : Type}.
#[local] Arguments Nat.ltb : simpl never.
Implicit Types (p : state SVIDUpdate) (u : SVIDUpdate).

(** One update pushed on a pipe at rest, the worker then running until it
    waits again, the consumer not moving: the update is queued, at the
    price of the oldest queued one when the buffer is full. *)
Lemma push_at_rest p u :
  at_rest p -> (1 <= bufferSize p)%nat ->
  (length (outCh p) <= bufferSize p)%nat ->
  exists schedule p',
    run schedule p = Some p'
    /\ pushed schedule = [Some u]
    /\ forallb producer_step schedule = true
    /\ at_rest p' /\ bufferSize p' = bufferSize p
    /\ received p' = received p
    /\ outCh p' = keep_last (bufferSize p) (outCh p ++ [Some u]).
Proof.
  destruct p as [n q rw rd sd cl cg fw]. unfold at_rest. simpl.
  intros (-> & -> & -> & -> & ->) Hn Hcap.
  destruct (length q <? n)%nat eqn:Hroom.
  - exists [DoPush (Some u); DoHandoff 0; DoForward; DoForward].
    eexists. split.
    { simpl. unfold Push, Handoff; simpl. unfold Forward; simpl.
      unfold Forward, trySend; simpl. rewrite Hroom. reflexivity. }
    simpl. apply Nat.ltb_lt in Hroom.
    repeat split; auto.
    + rewrite keep_last_all; [reflexivity|]. rewrite length_app. simpl. lia.
  - apply Nat.ltb_ge in Hroom.
    destruct q as [|oldest rest]; [simpl in *; lia|]. simpl in Hroom, Hcap.
    assert (Hrest : (length rest <? n)%nat = true)
      by (apply Nat.ltb_lt; lia).
    assert (Hfull : (S (length rest) <? n)%nat = false)
      by (apply Nat.ltb_ge; exact Hroom).
    exists [DoPush (Some u); DoHandoff 0; DoForward; DoForward;
            DoForward; DoForward].
    eexists. split.
    { simpl. unfold Push, Handoff; simpl. unfold Forward at 1; simpl.
      unfold Forward at 1, trySend; simpl. rewrite Hfull.
      unfold Forward at 1; simpl. unfold Forward, trySend; simpl.
      rewrite Hrest. reflexivity. }
    simpl. repeat split; auto.
    + unfold keep_last. simpl length. rewrite length_app. simpl length.
      replace (S (length rest + 1) - n)%nat with 1%nat by lia.
      reflexivity.
Qed.

(** The same for a run of updates. *)
Lemma pushes_at_rest (updates : list SVIDUpdate) :
  forall p,
    at_rest p -> (1 <= bufferSize p)%nat ->
    (length (outCh p) <= bufferSize p)%nat ->
    exists schedule p',
      run schedule p = Some p'
      /\ pushed schedule = map Some updates
      /\ forallb producer_step schedule = true
      /\ at_rest p' /\ bufferSize p' = bufferSize p
      /\ received p' = received p
      /\ outCh p' = keep_last (bufferSize p) (outCh p ++ map Some updates).
Proof.
  induction updates as [|u rest IH]; intros p Hrest Hn Hcap.
  - exists [], p. simpl. rewrite app_nil_r, keep_last_all by assumption.
    repeat split; auto; apply Hrest.
  - destruct (push_at_rest p u Hrest Hn Hcap)
      as (s1 & p1 & Hrun1 & Hpushed1 & Hidle1 & Hrest1 & Hn1 & Hrd1 & Hout1).
    destruct (IH p1 Hrest1) as
      (s2 & p2 & Hrun2 & Hpushed2 & Hidle2 & Hrest2 & Hn2 & Hrd2 & Hout2).
    { now rewrite Hn1. }
    { rewrite Hout1, Hn1. apply keep_last_length. }
    exists (s1 ++ s2), p2. repeat split.
    + now rewrite run_app, Hrun1.
    + clear - Hpushed1 Hpushed2.
      assert (Happ : forall a b : list (action SVIDUpdate),
                 pushed (a ++ b) = pushed a ++ pushed b).
      { induction a as [|[] a IHa]; intros b; simpl; rewrite ?IHa; auto. }
      rewrite Happ, Hpushed1, Hpushed2. reflexivity.
    + rewrite forallb_app, Hidle1, Hidle2. reflexivity.
    + apply Hrest2.
    + apply Hrest2.
    + apply Hrest2.
    + apply Hrest2.
    + apply Hrest2.
    + congruence.
    + congruence.
    + rewrite Hout2, Hn1, Hout1, keep_last_app, <- app_assoc. reflexivity.
Qed.

End PipeAtRest.

(** X11.  Whatever the goroutines do, the output channel of a pipe made
    with [BufferedPipe(size)] never queues more than [size] items. *)
Theorem outCh_never_exceeds_bufferSize {SVIDUpdate : Type} (size : Z)
    (p0 p : pipe.state SVIDUpdate) (schedule : list (pipe.action SVIDUpdate)) :
  pipe.BufferedPipe SVIDUpdate size = Some p0 ->
  pipe.run schedule p0 = Some p ->
  (Z.of_nat (length (pipe.outCh p)) <= size)%Z.
Proof.
  intros Hnew Hrun.
  destruct (BufferedPipe_invariant size p0 Hnew) as [Hinv Hsize].
  pose proof (run_invariant schedule p0 p Hinv Hrun) as [Hcap _ _ _ _ _].
  rewrite (run_bufferSize schedule p0 p Hrun), Hsize in Hcap.
  unfold pipe.BufferedPipe in Hnew.
  destruct (size <? 0)%Z eqn:Hneg; [discriminate|].
  apply Z.ltb_ge in Hneg. lia.
Qed.

(** X11, at a concrete input: a pipe of capacity 1 after three updates,
    the consumer not having moved. *)
Lemma outCh_never_exceeds_bufferSize_witness :
  exists p0 p : pipe.state nat,
    pipe.BufferedPipe nat 1 = Some p0
    /\ pipe.run
         [pipe.DoPush (Some 1%nat); pipe.DoHandoff 0;
          pipe.DoForward; pipe.DoForward;
          pipe.DoPush (Some 2%nat); pipe.DoHandoff 0;
          pipe.DoForward; pipe.DoForward; pipe.DoForward; pipe.DoForward;
          pipe.DoPush (Some 3%nat); pipe.DoHandoff 0;
          pipe.DoForward; pipe.DoForward; pipe.DoForward; pipe.DoForward]
         p0 = Some p
    /\ pipe.outCh p = [Some 3%nat]
    /\ (Z.of_nat (length (pipe.outCh p)) <= 1)%Z.
Proof.
  do 2 eexists. split; [reflexivity|]. split; [vm_compute; reflexivity|].
  split; [reflexivity|].
  eapply (outCh_never_exceeds_bufferSize 1 _ _
            [pipe.DoPush (Some 1%nat); pipe.DoHandoff 0;
             pipe.DoForward; pipe.DoForward;
             pipe.DoPush (Some 2%nat); pipe.DoHandoff 0;
             pipe.DoForward; pipe.DoForward; pipe.DoForward; pipe.DoForward;
             pipe.DoPush (Some 3%nat); pipe.DoHandoff 0;
             pipe.DoForward; pipe.DoForward; pipe.DoForward; pipe.DoForward]).
  - reflexivity.
  - vm_compute. reflexivity.
Defined.

(** X12.  In a pipe of capacity at least 1, when the worker comes to its
    [select] with the buffer full and the consumer leaves the channel alone
    for the next three steps of the worker, the worker discards the oldest
    queued item, queues the new one behind the others, and goes back to
    waiting on the intake; nothing is delivered meanwhile. *)
Theorem worker_drops_oldest_when_full {SVIDUpdate : Type} (size : Z)
    (p0 p : pipe.state SVIDUpdate) (schedule : list (pipe.action SVIDUpdate))
    (e : pipe.event SVIDUpdate) :
  pipe.BufferedPipe SVIDUpdate size = Some p0 ->
  pipe.run schedule p0 = Some p ->
  (1 <= size)%Z ->
  pipe.forwarder p = pipe.AtSelect e ->
  length (pipe.outCh p) = pipe.bufferSize p ->
  exists oldest rest p',
    pipe.outCh p = oldest :: rest
    /\ pipe.run [pipe.DoForward; pipe.DoForward; pipe.DoForward] p = Some p'
    /\ pipe.outCh p' = rest ++ [e]
    /\ pipe.forwarder p' = pipe.AtRange
    /\ pipe.received p' = pipe.received p.
Proof.
  intros Hnew Hrun Hsize Hfw Hfull.
  destruct (BufferedPipe_invariant size p0 Hnew) as [Hinv Hcap].
  pose proof (run_invariant schedule p0 p Hinv Hrun) as [_ _ _ _ Hwait _].
  rewrite (run_bufferSize schedule p0 p Hrun), Hcap in Hfull.
  destruct (pipe.outCh p) as [|oldest rest] eqn:Hout; [simpl in Hfull; lia|].
  assert (Hrecv : pipe.receiving p = false).
  { destruct (pipe.receiving p); [|reflexivity].
    specialize (Hwait eq_refl). discriminate. }
  destruct (Forward_drops_oldest p e oldest rest Hfw Hrecv Hout)
    as (p' & Hthree & Hqueue & Hback & Hsame).
  - rewrite Hout, Hfull, (run_bufferSize schedule p0 p Hrun), Hcap.
    reflexivity.
  - exists oldest, rest, p'. repeat split; assumption.
Qed.

(** X12, at a concrete input: capacity 2, [U1] and [U2] queued, [U3] in the
    hand of the worker. *)
Lemma worker_drops_oldest_when_full_witness :
  exists p0 p p' : pipe.state nat,
    pipe.BufferedPipe nat 2 = Some p0
    /\ pipe.run
         [pipe.DoPush (Some 1%nat); pipe.DoHandoff 0;
          pipe.DoForward; pipe.DoForward;
          pipe.DoPush (Some 2%nat); pipe.DoHandoff 0;
          pipe.DoForward; pipe.DoForward;
          pipe.DoPush (Some 3%nat); pipe.DoHandoff 0; pipe.DoForward]
         p0 = Some p
    /\ pipe.outCh p = [Some 1%nat; Some 2%nat]
    /\ pipe.run [pipe.DoForward; pipe.DoForward; pipe.DoForward] p = Some p'
    /\ pipe.outCh p' = [Some 2%nat; Some 3%nat].
Proof.
  do 2 eexists.
  destruct (worker_drops_oldest_when_full 2
              {| pipe.bufferSize := 2; pipe.outCh := [];
                 pipe.receiving := false; pipe.received := [];
                 pipe.senders := []; pipe.closed := false;
                 pipe.closing := false; pipe.forwarder := pipe.AtRange |}
              {| pipe.bufferSize := 2;
                 pipe.outCh := [Some 1%nat; Some 2%nat];
                 pipe.receiving := false; pipe.received := [];
                 pipe.senders := []; pipe.closed := false;
                 pipe.closing := false;
                 pipe.forwarder := pipe.AtSelect (Some 3%nat) |}
              [pipe.DoPush (Some 1%nat); pipe.DoHandoff 0;
               pipe.DoForward; pipe.DoForward;
               pipe.DoPush (Some 2%nat); pipe.DoHandoff 0;
               pipe.DoForward; pipe.DoForward;
               pipe.DoPush (Some 3%nat); pipe.DoHandoff 0; pipe.DoForward]
              (Some 3%nat))
    as (oldest & rest & p' & Hout & Hthree & Hqueue & _ & _).
  - reflexivity.
  - vm_compute. reflexivity.
  - lia.
  - reflexivity.
  - reflexivity.
  - exists p'. split; [reflexivity|]. split; [vm_compute; reflexivity|].
    split; [reflexivity|]. split; [exact Hthree|].
    simpl in Hout. injection Hout as <- <-. exact Hqueue.
Defined.

(** X13.  A consumer that does not receive cannot stall the producer of a
    pipe of capacity [size] at least 1: any sequence of updates can be
    pushed one after the other on the fresh pipe, each [Push] being taken
    by the worker and forwarded, by steps of the producer and the worker
    alone; the pipe is then at rest again, holds the last [size] updates,
    and has delivered nothing. *)
Theorem idle_consumer_does_not_stall_pushes {SVIDUpdate : Type} (size : Z)
    (p0 : pipe.state SVIDUpdate) (updates : list SVIDUpdate) :
  pipe.BufferedPipe SVIDUpdate size = Some p0 ->
  (1 <= size)%Z ->
  exists schedule p,
    pipe.run schedule p0 = Some p
    /\ statement.pushed schedule = map Some updates
    /\ forallb statement.producer_step schedule = true
    /\ pipe.outCh p
       = statement.keep_last (Z.to_nat size) (map Some updates)
    /\ pipe.received p = []
    /\ statement.at_rest p.
Proof.
  intros Hnew Hsize. unfold pipe.BufferedPipe in Hnew.
  destruct (size <? 0)%Z; [discriminate|]. injection Hnew as <-.
  destruct (pushes_at_rest updates
              {| pipe.bufferSize := Z.to_nat size; pipe.outCh := [];
                 pipe.receiving := false; pipe.received := [];
                 pipe.senders := []; pipe.closed := false;
                 pipe.closing := false; pipe.forwarder := pipe.AtRange |})
    as (schedule & p & Hrun & Hpushed & Hidle & Hrest & _ & Hrd & Hout).
  - repeat split.
  - simpl. lia.
  - simpl. lia.
  - exists schedule, p. repeat split; try assumption; apply Hrest.
Qed.

(** X13, at a concrete input: capacity 2 and the updates 1, 2, 3, 4. *)
Lemma idle_consumer_does_not_stall_pushes_witness :
  exists schedule (p : pipe.state nat),
    pipe.run schedule
      {| pipe.bufferSize := 2; pipe.outCh := [];
         pipe.receiving := false; pipe.received := [];
         pipe.senders := []; pipe.closed := false;
         pipe.closing := false; pipe.forwarder := pipe.AtRange |} = Some p
    /\ statement.pushed schedule
       = [Some 1%nat; Some 2%nat; Some 3%nat; Some 4%nat]
    /\ pipe.outCh p = [Some 3%nat; Some 4%nat].
Proof.
  destruct (idle_consumer_does_not_stall_pushes 2
              {| pipe.bufferSize := 2; pipe.outCh := [];
                 pipe.receiving := false; pipe.received := [];
                 pipe.senders := []; pipe.closed := false;
                 pipe.closing := false; pipe.forwarder := pipe.AtRange |}
              [1%nat; 2%nat; 3%nat; 4%nat])
    as (schedule & p & Hrun & Hpushed & _ & Hout & _ & _).
  - reflexivity.
  - lia.
  - exists schedule, p. split; [exact Hrun|]. split; [exact Hpushed|].
    exact Hout.
Defined.

(** X14.  The pipe invents nothing: every event the consumer has received,
    and every event queued, in the hand of the worker or offered by a
    blocked [Push], was the argument of a [Push] made since the pipe was
    built. *)
Theorem delivered_events_were_pushed {SVIDUpdate : Type} (size : Z)
    (p0 p : pipe.state SVIDUpdate) (schedule : list (pipe.action SVIDUpdate))
    (e : pipe.event SVIDUpdate) :
  pipe.BufferedPipe SVIDUpdate size = Some p0 ->
  pipe.run schedule p0 = Some p ->
  In e (statement.contents p) ->
  In e (statement.pushed schedule).
Proof.
  intros Hnew Hrun Hin.
  destruct (run_contents schedule p0 p e Hrun Hin) as [Hinit | Hpushed];
    [|exact Hpushed].
  unfold pipe.BufferedPipe in Hnew.
  destruct (size <? 0)%Z; [discriminate|]. injection Hnew as <-.
  destruct Hinit.
Qed.

(** X14, at a concrete input: [U1] received, [U2] queued. *)
Lemma delivered_events_were_pushed_witness :
  In (Some 1%nat)
     (statement.pushed
        [pipe.DoPush (Some 1%nat); pipe.DoHandoff 0;
         pipe.DoForward; pipe.DoForward; pipe.DoReceive;
         pipe.DoPush (Some 2%nat); pipe.DoHandoff 0;
         pipe.DoForward; pipe.DoForward]).
Proof.
  apply (delivered_events_were_pushed 1
           {| pipe.bufferSize := 1; pipe.outCh := [];
              pipe.receiving := false; pipe.received := [];
              pipe.senders := []; pipe.closed := false;
              pipe.closing := false; pipe.forwarder := pipe.AtRange |}
           {| pipe.bufferSize := 1; pipe.outCh := [Some 2%nat];
              pipe.receiving := false; pipe.received := [Some 1%nat];
              pipe.senders := []; pipe.closed := false;
              pipe.closing := false; pipe.forwarder := pipe.AtRange |}).
  - reflexivity.
  - vm_compute. reflexivity.
  - simpl. now left.
Defined.

Section PipeCoalescing.

Import statement pipe.
Context {SVIDUpdate : Type}.
Implicit Types (p : state SVIDUpdate) (e : event SVIDUpdate).
#[local] Arguments Nat.ltb : simpl never.

Lemma filter_is_update_id (q : list (event SVIDUpdate)) :
  ~ In None q -> List.filter is_update q = q.
Proof.
  induction q as [|[u|] q IH]; simpl; intros Hnil.
  - reflexivity.
  - rewrite IH; [reflexivity | tauto].
  - exfalso. apply Hnil. now left.
Qed.

Lemma pushed_cons (a : action SVIDUpdate) rest :
  pushed (a :: rest) = pushed [a] ++ pushed rest.
Proof. now destruct a. Qed.

Lemma BufferedPipe_coalescing size p :
  BufferedPipe SVIDUpdate size = Some p -> coalescing [] p.
Proof.
  unfold BufferedPipe. destruct (size <? 0)%Z; [discriminate|].
  intros [= <-]. unfold coalescing, alive. simpl.
  repeat split; try discriminate. exists []. auto.
Qed.

(** A producer step keeps the updates on their way the last ones pushed. *)
Lemma step_coalescing a p p' updates :
  pipe_invariant p -> coalescing updates p ->
  producer_step a = true -> step a p = Some p' ->
  coalescing (updates ++ List.filter is_update (pushed [a])) p'.
Proof.
  intros [Hcap Hq _ Hf _ _].
  destruct p as [n q rw rd sd cl cg fw]. unfold coalescing, alive. simpl in *.
  intros ((dropped & Hupd & Hfull) & Hdiscard & -> & -> & -> & ->).
  destruct a as [e'|[|i]| | | |]; simpl; try discriminate; intros _.
  - unfold Push; simpl. intros [= <-]; simpl.
    repeat split; auto. exists dropped. split; [|exact Hfull].
    rewrite Hupd, !List.filter_app, <- !app_assoc. reflexivity.
  - unfold Handoff; simpl. destruct fw; try discriminate.
    destruct sd as [|e0 sd]; [discriminate|]. simpl.
    intros [= <-]; simpl. rewrite app_nil_r.
    repeat split; auto; try discriminate. exists dropped. auto.
  - rewrite app_nil_r. unfold Forward, trySend; simpl.
    destruct fw as [|[u|]|e0|e0|e0|]; simpl; try discriminate.
    + intros [= <-]; simpl.
      repeat split; auto; try discriminate. exists dropped. auto.
    + intros [= <-]; simpl.
      repeat split; auto; try discriminate. exists dropped. split; [|exact Hfull].
      rewrite Hupd, !List.filter_app. reflexivity.
    + destruct (length q <? n)%nat eqn:Hroom; intros [= <-]; simpl.
      * repeat split; auto; try discriminate. exists dropped. split.
        -- rewrite Hupd, !List.filter_app, <- !app_assoc. reflexivity.
        -- rewrite length_app. simpl. destruct Hfull; [auto | right; lia].
      * apply Nat.ltb_ge in Hroom.
        repeat split; auto. exists dropped. auto.
    + destruct q as [|oldest rest] eqn:Hout; [discriminate|].
      intros [= <-]; simpl.
      repeat split; auto; try discriminate.
      destruct oldest as [u|]; [|exfalso; apply Hq; now left].
      exists (dropped ++ [Some u]). split.
      * rewrite Hupd. simpl. now rewrite <- app_assoc.
      * right. specialize (Hdiscard e0 eq_refl). simpl in Hdiscard. lia.
    + destruct (length q <? n)%nat eqn:Hroom; [|discriminate].
      intros [= <-]; simpl.
      repeat split; auto; try discriminate. exists dropped. split.
      * rewrite Hupd, !List.filter_app, <- !app_assoc. reflexivity.
      * rewrite length_app. simpl. destruct Hfull; [auto | right; lia].
Qed.

Lemma run_coalescing schedule :
  forall p p' updates,
    pipe_invariant p -> coalescing updates p ->
    forallb producer_step schedule = true -> run schedule p = Some p' ->
    coalescing (updates ++ List.filter is_update (pushed schedule)) p'.
Proof.
  induction schedule as [|a rest IH]; intros p p' updates Hinv Hco; simpl run.
  - intros _ [= <-]. simpl. now rewrite app_nil_r.
  - simpl forallb. intros Hsteps. apply andb_prop in Hsteps as [Ha Hrest].
    destruct (step a p) as [p1|] eqn:Hstep; [|discriminate]. intros Hrun.
    rewrite pushed_cons, List.filter_app, app_assoc.
    apply (IH p1); auto.
    + eapply step_invariant; eauto.
    + now apply step_coalescing with (p := p).
Qed.

(** At rest the buffer is the tail of what was pushed. *)
Lemma coalescing_at_rest updates p :
  pipe_invariant p -> coalescing updates p ->
  forwarder p = AtRange -> senders p = [] ->
  outCh p = keep_last (bufferSize p) updates.
Proof.
  intros [Hcap Hq _ _ _ _] ((dropped & Hupd & Hfull) & _) Hfw Hsd.
  unfold alive in Hupd. rewrite Hfw, Hsd in Hupd. simpl in Hupd.
  rewrite app_nil_r, (filter_is_update_id _ Hq) in Hupd.
  rewrite Hfw in Hfull. subst updates.
  destruct Hfull as [-> | Hfull].
  - simpl. now rewrite keep_last_all.
  - unfold keep_last. rewrite length_app.
    replace (length dropped + length (outCh p) - bufferSize p)%nat
      with (length dropped) by lia.
    now rewrite drop_app_length.
Qed.

End PipeCoalescing.

(** X15.  Latest wins, whatever the interleaving.  Take any run of a fresh
    pipe made of [Push] calls and steps of the worker only, the worker
    taking the blocked [Push] calls in call order (which is the only choice
    with a single producer).  Whenever such a run leaves the worker waiting
    on the intake with no [Push] in progress, the output channel holds the
    last [size] non-nil events pushed, oldest first, and nothing else. *)
Theorem latest_updates_are_kept {SVIDUpdate : Type} (size : Z)
    (p0 p : pipe.state SVIDUpdate) (schedule : list (pipe.action SVIDUpdate)) :
  pipe.BufferedPipe SVIDUpdate size = Some p0 ->
  forallb statement.producer_step schedule = true ->
  pipe.run schedule p0 = Some p ->
  pipe.forwarder p = pipe.AtRange ->
  pipe.senders p = [] ->
  pipe.outCh p
  = statement.keep_last (Z.to_nat size)
      (List.filter statement.is_update (statement.pushed schedule)).
Proof.
  intros Hnew Hsteps Hrun Hfw Hsd.
  destruct (BufferedPipe_invariant size p0 Hnew) as [Hinv Hsize].
  pose proof (run_coalescing schedule p0 p [] Hinv
                (BufferedPipe_coalescing size p0 Hnew) Hsteps Hrun) as Hco.
  rewrite <- Hsize, <- (run_bufferSize schedule p0 p Hrun).
  apply coalescing_at_rest; auto.
  eapply run_invariant; eauto.
Qed.

(** X15, at a concrete input: capacity 1; a nil and three updates are
    pushed, the third while the worker is still busy with the second. *)
Lemma latest_updates_are_kept_witness :
  pipe.outCh
    {| pipe.bufferSize := 1; pipe.outCh := [Some 3%nat];
       pipe.receiving := false; pipe.received := [];
       pipe.senders := []; pipe.closed := false;
       pipe.closing := false; pipe.forwarder := pipe.AtRange |}
  = statement.keep_last 1 [Some 1%nat; Some 2%nat; Some 3%nat].
Proof.
  apply (latest_updates_are_kept 1
           {| pipe.bufferSize := 1; pipe.outCh := [];
              pipe.receiving := false; pipe.received := [];
              pipe.senders := []; pipe.closed := false;
              pipe.closing := false; pipe.forwarder := pipe.AtRange |}
           _
           [pipe.DoPush None; pipe.DoHandoff 0; pipe.DoForward;
            pipe.DoPush (Some 1%nat); pipe.DoHandoff 0;
            pipe.DoForward; pipe.DoForward;
            pipe.DoPush (Some 2%nat); pipe.DoHandoff 0;
            pipe.DoForward; pipe.DoPush (Some 3%nat);
            pipe.DoForward; pipe.DoForward; pipe.DoForward;
            pipe.DoHandoff 0;
            pipe.DoForward; pipe.DoForward; pipe.DoForward; pipe.DoForward]).
  - reflexivity.
  - reflexivity.
  - vm_compute. reflexivity.
  - reflexivity.
  - reflexivity.
Defined.

(** X16.  When [Close] returns, the worker has left its loop and the pipe
    is closed for good: from then on every [Push], whatever its event,
    returns at once without changing the pipe, and a further [Close] does
    nothing. *)
Theorem Push_and_Close_do_nothing_after_Close {SVIDUpdate : Type} (size : Z)
    (p0 p p' : pipe.state SVIDUpdate)
    (schedule : list (pipe.action SVIDUpdate)) :
  pipe.BufferedPipe SVIDUpdate size = Some p0 ->
  pipe.run schedule p0 = Some p ->
  pipe.CloseReturn p = Some p' ->
  pipe.forwarder p' = pipe.Exited
  /\ pipe.closed p' = true
  /\ (forall e, pipe.Push e p' = Some p')
  /\ pipe.Close p' = Some p'.
Proof.
  intros Hnew Hrun Hret.
  destruct (BufferedPipe_invariant size p0 Hnew) as [Hinv0 _].
  pose proof (run_invariant schedule p0 p Hinv0 Hrun) as [_ _ _ _ _ Hsenders].
  pose proof (run_close_invariant schedule p0 p
                (BufferedPipe_close_invariant size p0 Hnew) Hrun)
    as [Hclosing _ _].
  unfold pipe.CloseReturn in Hret.
  destruct (pipe.closing p) eqn:Hcg; [|discriminate].
  destruct (pipe.forwarder p) eqn:Hfw; try discriminate.
  injection Hret as <-. specialize (Hclosing eq_refl).
  unfold pipe.Push, pipe.Close. simpl.
  rewrite Hclosing, (Hsenders Hclosing). auto.
Qed.

(** X16, at a concrete input: a pipe of capacity 1 is closed with [U1]
    still queued; [U2] is pushed afterwards. *)
Lemma Push_and_Close_do_nothing_after_Close_witness :
  exists p' : pipe.state nat,
    pipe.run [pipe.DoPush (Some 1%nat); pipe.DoHandoff 0;
              pipe.DoForward; pipe.DoForward;
              pipe.DoClose; pipe.DoForward; pipe.DoCloseReturn]
      {| pipe.bufferSize := 1; pipe.outCh := [];
         pipe.receiving := false; pipe.received := [];
         pipe.senders := []; pipe.closed := false;
         pipe.closing := false; pipe.forwarder := pipe.AtRange |} = Some p'
    /\ pipe.outCh p' = [Some 1%nat]
    /\ pipe.Push (Some 2%nat) p' = Some p'
    /\ pipe.Close p' = Some p'.
Proof.
  eexists. split; [vm_compute; reflexivity|]. split; [reflexivity|].
  destruct (Push_and_Close_do_nothing_after_Close 1
              {| pipe.bufferSize := 1; pipe.outCh := [];
                 pipe.receiving := false; pipe.received := [];
                 pipe.senders := []; pipe.closed := false;
                 pipe.closing := false; pipe.forwarder := pipe.AtRange |}
              {| pipe.bufferSize := 1; pipe.outCh := [Some 1%nat];
                 pipe.receiving := false; pipe.received := [];
                 pipe.senders := []; pipe.closed := true;
                 pipe.closing := true; pipe.forwarder := pipe.Exited |}
              {| pipe.bufferSize := 1; pipe.outCh := [Some 1%nat];
                 pipe.receiving := false; pipe.received := [];
                 pipe.senders := []; pipe.closed := true;
                 pipe.closing := false; pipe.forwarder := pipe.Exited |}
              [pipe.DoPush (Some 1%nat); pipe.DoHandoff 0;
               pipe.DoForward; pipe.DoForward;
               pipe.DoClose; pipe.DoForward])
    as (_ & _ & Hpush & Hclose).
  - reflexivity.
  - vm_compute. reflexivity.
  - reflexivity.
  - split; [apply Hpush | exact Hclose].
Defined.

(** X17.  Closing loses nothing that was queued: once the worker has left
    its loop and closed the output channel, the consumer still receives
    every queued item, oldest first, and only then the end of the stream,
    which it keeps receiving from then on. *)
Theorem queued_items_are_received_after_close {SVIDUpdate : Type} (size : Z)
    (p0 p : pipe.state SVIDUpdate) (schedule : list (pipe.action SVIDUpdate)) :
  pipe.BufferedPipe SVIDUpdate size = Some p0 ->
  pipe.run schedule p0 = Some p ->
  pipe.forwarder p = pipe.Exited ->
  exists p',
    pipe.run (repeat pipe.DoReceive (length (pipe.outCh p))) p = Some p'
    /\ pipe.received p' = pipe.received p ++ pipe.outCh p
    /\ pipe.outCh p' = []
    /\ pipe.Receive p' = Some p'.
Proof.
  intros Hnew Hrun Hexit.
  pose proof (run_close_invariant schedule p0 p
                (BufferedPipe_close_invariant size p0 Hnew) Hrun)
    as [_ _ Hrecv].
  specialize (Hrecv Hexit).
  rewrite (Receive_all (pipe.outCh p) p eq_refl Hrecv).
  eexists. split; [reflexivity|]. simpl. repeat split.
  unfold pipe.Receive. simpl. now rewrite Hrecv, Hexit.
Qed.

(** X17, at a concrete input: capacity 2, [U1] and [U2] queued when the
    pipe is closed. *)
Lemma queued_items_are_received_after_close_witness :
  exists p' : pipe.state nat,
    pipe.run [pipe.DoReceive; pipe.DoReceive]
      {| pipe.bufferSize := 2; pipe.outCh := [Some 1%nat; Some 2%nat];
         pipe.receiving := false; pipe.received := [];
         pipe.senders := []; pipe.closed := true;
         pipe.closing := true; pipe.forwarder := pipe.Exited |} = Some p'
    /\ pipe.received p' = [Some 1%nat; Some 2%nat]
    /\ pipe.outCh p' = []
    /\ pipe.Receive p' = Some p'.
Proof.
  apply (queued_items_are_received_after_close 2
           {| pipe.bufferSize := 2; pipe.outCh := [];
              pipe.receiving := false; pipe.received := [];
              pipe.senders := []; pipe.closed := false;
              pipe.closing := false; pipe.forwarder := pipe.AtRange |}
           {| pipe.bufferSize := 2; pipe.outCh := [Some 1%nat; Some 2%nat];
              pipe.receiving := false; pipe.received := [];
              pipe.senders := []; pipe.closed := true;
              pipe.closing := true; pipe.forwarder := pipe.Exited |}
           [pipe.DoPush (Some 1%nat); pipe.DoHandoff 0;
            pipe.DoForward; pipe.DoForward;
            pipe.DoPush (Some 2%nat); pipe.DoHandoff 0;
            pipe.DoForward; pipe.DoForward;
            pipe.DoClose; pipe.DoForward]).
  - reflexivity.
  - vm_compute. reflexivity.
  - reflexivity.
Defined.

(** ** Storable selectors, again *)

(** X18.  [IsStorable] looks at the selectors one by one: a list is
    storable exactly when one of its parts is, so adding selectors never
    turns a storable entry into one that is not. *)
Theorem IsStorable_app (svidstoreType : string)
    (l1 l2 : list common.Selector) :
  pipe.IsStorable svidstoreType (l1 ++ l2)
  = pipe.IsStorable svidstoreType l1 || pipe.IsStorable svidstoreType l2.
Proof.
  induction l1 as [|s rest IH]; simpl; [reflexivity|].
  now destruct (String.eqb (common.Type_ s) (strings.ToLower svidstoreType)).
Qed.

(** X19.  On selectors whose types are written in lower case, [IsStorable]
    does compare without regard to case: it is true exactly when the type
    of some selector equals the store type up to the case of the letters
    of the store type. *)
Theorem IsStorable_ignores_case_of_lowercase_selectors
    (svidstoreType : string) (selectors : list common.Selector) :
  Forall (fun s => strings.ToLower (common.Type_ s) = common.Type_ s)
    selectors ->
  (pipe.IsStorable svidstoreType selectors = true
   <-> exists s, In s selectors
                 /\ statement.EqualFold (common.Type_ s) svidstoreType).
Proof.
  intros Hlower. unfold statement.EqualFold.
  induction Hlower as [|s rest Hs Hrest IH]; simpl.
  - split; [discriminate | intros (s & [] & _)].
  - destruct (String.eqb (common.Type_ s) (strings.ToLower svidstoreType))
      eqn:Heq.
    + apply String.eqb_eq in Heq. split; [|reflexivity]. intros _.
      exists s. split; [now left | congruence].
    + apply String.eqb_neq in Heq. rewrite IH. split.
      * intros (s' & Hin & Hfold). eauto.
      * intros (s' & [<- | Hin] & Hfold); [|eauto].
        exfalso. apply Heq. congruence.
Qed.

(** X19, at a concrete input: the store type [SVIDStore] and a selector of
    type [svidstore] behind a selector of another type. *)
Lemma IsStorable_ignores_case_of_lowercase_selectors_witness :
  pipe.IsStorable "SVIDStore"
    [ {| common.Type_ := "unix"; common.Value := "uid:0" |};
      {| common.Type_ := "svidstore"; common.Value := "secret" |} ] = true.
Proof.
  apply (IsStorable_ignores_case_of_lowercase_selectors "SVIDStore"
           [ {| common.Type_ := "unix"; common.Value := "uid:0" |};
             {| common.Type_ := "svidstore"; common.Value := "secret" |} ]).
  - repeat constructor.
  - eexists. split; [right; left; reflexivity | reflexivity].
Defined.

(** ** The pipe keeps the order of the events *)

Section PipeOrder.

Import statement pipe.
Context {SVIDUpdate : Type}.
Implicit Types (p : state SVIDUpdate) (e : event SVIDUpdate).

(** Subsequences of lists put together with [++] and [::]. *)
Ltac sublists :=
  rewrite <- ?app_assoc; simpl;
  repeat first
    [ reflexivity
    | apply sublist_skip
    | apply sublist_app; [reflexivity|]
    | apply sublist_cons ].

Lemma step_order a p p' :
  pipe_invariant p -> fifo_step a = true -> step a p = Some p' ->
  contents p' `sublist_of` contents p ++ pushed [a].
Proof.
  intros [_ _ _ _ Hwait _].
  destruct p as [n q rw rd sd cl cg fw]. unfold contents. simpl in *.
  destruct a as [e'|[|i]| | | |]; simpl; try discriminate; intros _.
  - unfold Push; simpl. destruct cg; [discriminate|].
    destruct cl; intros [= <-]; simpl; [|sublists].
    apply sublist_inserts_r. reflexivity.
  - unfold Handoff; simpl. destruct fw; try discriminate.
    destruct sd as [|e0 sd]; [discriminate|]. simpl.
    intros [= <-]; simpl. rewrite app_nil_r. reflexivity.
  - rewrite app_nil_r. unfold Forward, trySend; simpl.
    destruct fw as [|[u|]|e0|e0|e0|]; simpl; try discriminate.
    + destruct cl; [|discriminate]. intros [= <-]; simpl. reflexivity.
    + intros [= <-]; simpl. reflexivity.
    + intros [= <-]; simpl. sublists.
    + destruct rw.
      * rewrite (Hwait eq_refl). intros [= <-]; simpl. sublists.
      * destruct (length q <? n)%nat; intros [= <-]; simpl; sublists.
    + destruct q as [|oldest rest]; [discriminate|].
      intros [= <-]; simpl. sublists.
    + destruct rw.
      * rewrite (Hwait eq_refl). intros [= <-]; simpl. sublists.
      * destruct (length q <? n)%nat; [|discriminate].
        intros [= <-]; simpl; sublists.
  - rewrite app_nil_r. unfold Receive; simpl. destruct rw; [discriminate|].
    destruct q as [|e0 rest].
    + destruct fw; intros [= <-]; simpl; reflexivity.
    + intros [= <-]; simpl. sublists.
  - rewrite app_nil_r. unfold Close; simpl. destruct cg; [discriminate|].
    destruct sd; [|discriminate].
    destruct cl; intros [= <-]; simpl; reflexivity.
  - rewrite app_nil_r. unfold CloseReturn; simpl.
    destruct cg; [|discriminate]. destruct fw; try discriminate.
    intros [= <-]; simpl; reflexivity.
Qed.

Lemma run_order schedule :
  forall p p',
    pipe_invariant p -> forallb fifo_step schedule = true ->
    run schedule p = Some p' ->
    contents p' `sublist_of` contents p ++ pushed schedule.
Proof.
  induction schedule as [|a rest IH]; intros p p' Hinv; simpl run.
  - intros _ [= <-]. simpl. now rewrite app_nil_r.
  - simpl forallb. intros Hsteps. apply andb_prop in Hsteps as [Ha Hrest].
    destruct (step a p) as [p1|] eqn:Hstep; [|discriminate]. intros Hrun.
    rewrite pushed_cons, app_assoc.
    transitivity (contents p1 ++ pushed rest).
    + apply IH; auto. eapply step_invariant; eauto.
    + apply sublist_app; [|reflexivity]. now apply step_order.
Qed.

End PipeOrder.

(** X20.  The pipe keeps the order of the events and repeats none.  In
    every run of a fresh pipe in which the worker takes the blocked [Push]
    calls in call order, read the events the consumer has received, then
    the queued ones, then the one in the hand of the worker, then the ones
    offered by blocked [Push] calls: together they are a subsequence of the
    events pushed, in push order.  Some may have been dropped; none
    overtakes another and none is delivered twice. *)
Theorem events_keep_their_order {SVIDUpdate : Type} (size : Z)
    (p0 p : pipe.state SVIDUpdate) (schedule : list (pipe.action SVIDUpdate)) :
  pipe.BufferedPipe SVIDUpdate size = Some p0 ->
  forallb statement.fifo_step schedule = true ->
  pipe.run schedule p0 = Some p ->
  statement.contents p `sublist_of` statement.pushed schedule.
Proof.
  intros Hnew Hfifo Hrun.
  destruct (BufferedPipe_invariant size p0 Hnew) as [Hinv _].
  pose proof (run_order schedule p0 p Hinv Hfifo Hrun) as Horder.
  unfold pipe.BufferedPipe in Hnew.
  destruct (size <? 0)%Z; [discriminate|]. injection Hnew as <-.
  exact Horder.
Qed.

(** X20, at a concrete input: capacity 1; [U1] is received, [U2] is
    dropped for [U3], which is queued. *)
Lemma events_keep_their_order_witness :
  [Some 1%nat; Some 3%nat]
  `sublist_of` [Some 1%nat; Some 2%nat; Some 3%nat].
Proof.
  apply (events_keep_their_order 1
           {| pipe.bufferSize := 1; pipe.outCh := [];
              pipe.receiving := false; pipe.received := [];
              pipe.senders := []; pipe.closed := false;
              pipe.closing := false; pipe.forwarder := pipe.AtRange |}
           {| pipe.bufferSize := 1; pipe.outCh := [Some 3%nat];
              pipe.receiving := false; pipe.received := [Some 1%nat];
              pipe.senders := []; pipe.closed := false;
              pipe.closing := false; pipe.forwarder := pipe.AtRange |}
           [pipe.DoPush (Some 1%nat); pipe.DoHandoff 0;
            pipe.DoForward; pipe.DoForward; pipe.DoReceive;
            pipe.DoPush (Some 2%nat); pipe.DoHandoff 0;
            pipe.DoForward; pipe.DoForward;
            pipe.DoPush (Some 3%nat); pipe.DoHandoff 0;
            pipe.DoForward; pipe.DoForward; pipe.DoForward; pipe.DoForward]).
  - reflexivity.
  - reflexivity.
  - vm_compute. reflexivity.
Defined.
